(** * Categorical summary ([cat_var]) and ordinal encoding of
      [notebooks/model_performance.ipynb]

    The notebook defines two functions of its own:

    - [cat_var(df, cols)]: for every requested column, the array of its unique
      values and their number, collected in a list of dicts, turned into a
      data frame, sorted by the number of values (descending) and re-indexed;
    - [ordinal_encoding(x)]: ['?'] is sent to 27, any other character to
      [ord(x) - 96].

    Python objects live in a store and are reached through references, so
    that what a call leaves untouched can be stated.  The sorting routine
    that [sort_values] delegates to ([ndarray.argsort] of the requested
    [kind]) is an interface: its operation is a class, its contract a second
    class, and the development holds for every routine that honours it. *)

From Stdlib Require Import ZArith Ascii String Sorting.Sorted.
From stdpp Require Import base decidable option list sorting countable
  strings gmap.

Set Warnings "-clear-no-such-hyp".

(* ================================================================== *)
(** * Data *)
(* ================================================================== *)

(** A scalar held by a table cell.  The notebook's tables hold strings (the
    mushroom codes, ['?'] among them), integers (after encoding) and the
    missing marker that the CSV reader produces.  [unique] compares all of
    them by equality; the marker is a value like any other. *)
Inductive value : Type :=
  | Str (s : string)
  | Int (z : Z)
  | NaN.

#[global] Instance value_eq_dec : EqDecision value.
Proof. solve_decision. Defined.

Definition value_enc (v : value) : string + (Z + unit) :=
  match v with
  | Str s => inl s
  | Int z => inr (inl z)
  | NaN => inr (inr ())
  end.

Definition value_dec (x : string + (Z + unit)) : value :=
  match x with
  | inl s => Str s
  | inr (inl z) => Int z
  | inr (inr _) => NaN
  end.

#[global] Instance value_countable : Countable value.
Proof.
  apply (inj_countable' value_enc value_dec).
  intros []; reflexivity.
Defined.

(** A table: named columns, each a sequence of scalars.  Column labels are
    unique, as [pd.read_csv] makes them. *)
Abbreviation table := (gmap string (list value)).

(** The dict built in the loop body of [cat_var]; its keys are the record's
    fields. *)
Record row : Type := Row {
  categorical_variable : string;
  number_of_possible_values : nat;
  values : list value
}.

#[global] Instance row_eq_dec : EqDecision row.
Proof. solve_decision. Defined.

(** A data frame of summary rows: every row carries its index label. *)
Abbreviation frame := (list (nat * row)).

Abbreviation loc := nat.

(** The objects of the store. *)
Inductive obj : Type :=
  | OTable (t : table)           (* a DataFrame of raw data *)
  | OList (l : list string)      (* a list of column names *)
  | ODicts (l : list row)        (* a list of summary dicts *)
  | OFrame (f : frame).          (* a DataFrame of summary rows *)

(** The store grows at its end: a reference is a position in it. *)
Abbreviation heap := (list obj).

Inductive exn : Type :=
  | KeyError (k : string)
  | TypeError.

#[global] Instance exn_eq_dec : EqDecision exn.
Proof. solve_decision. Defined.

(* ================================================================== *)
(** * [Series.unique] *)
(* ================================================================== *)

(** [unique] walks the column once with a table of the values seen so far
    and keeps a value the first time it meets it: the result lists the
    distinct values in order of first appearance. *)
Fixpoint unique_from (seen xs : list value) : list value :=
  match xs with
  | [] => []
  | x :: xs' =>
      if decide (x ∈ seen) then unique_from seen xs'
      else x :: unique_from (x :: seen) xs'
  end.

Definition unique (xs : list value) : list value := unique_from [] xs.

(* ================================================================== *)
(** * Sorting *)
(* ================================================================== *)

(** [ndarray.argsort(kind=...)]: the positions of the keys, arranged so
    that the keys read through them ascend. *)
Class ArgSort : Type := argsort : list nat → list nat.

(** What every [kind] guarantees. *)
Class ArgSortOk {AS : ArgSort} : Prop := {
  argsort_perm ks : argsort ks ≡ₚ seq 0 (length ks);
  argsort_sorted ks : Sorted le ((λ i, nth i ks 0) <$> argsort ks)
}.

(** Position [i] comes before position [j] in a stable ascending order. *)
Definition stable_lt (ks : list nat) (i j : nat) : Prop :=
  nth i ks 0 < nth j ks 0 ∨ (nth i ks 0 = nth j ks 0 ∧ i < j).

(** The same for a descending order: larger keys first, equal keys by
    position. *)
Definition stable_gt (ks : list nat) (i j : nat) : Prop :=
  nth j ks 0 < nth i ks 0 ∨ (nth i ks 0 = nth j ks 0 ∧ i < j).

(** What [kind="stable"] and [kind="mergesort"] add: equal keys keep their
    relative order.  The default [kind="quicksort"] does not promise it. *)
Class ArgSortStable {AS : ArgSort} : Prop :=
  argsort_stable ks : StronglySorted (stable_lt ks) (argsort ks).

(** Fancy indexing [a[indexer]] and [DataFrame.take(indexer)]. *)
Definition take_at {A} (a : list A) (indexer : list nat) : list A :=
  omap (λ i, a !! i) indexer.

(** [pandas.core.sorting.nargsort] for [ascending=False] on keys none of
    which is missing: keys and positions are reversed, the reversed keys are
    argsorted, and the resulting indexer is reversed again. *)
Definition nargsort_desc {AS : ArgSort} (items : list nat) : list nat :=
  let idx := seq 0 (length items) in
  let non_nans := reverse items in
  let non_nan_idx := reverse idx in
  let indexer := take_at non_nan_idx (argsort non_nans) in
  reverse indexer.

(** Two routines to instantiate the interface with.  Both insert the
    positions one by one into the sorted positions that follow; they differ
    in where a position goes among equal keys. *)
Fixpoint insert_pos (strict : bool) (ks : list nat) (i : nat)
    (sorted : list nat) : list nat :=
  match sorted with
  | [] => [i]
  | j :: rest =>
      if (if strict then bool_decide (nth i ks 0 < nth j ks 0)
          else bool_decide (nth i ks 0 ≤ nth j ks 0))
      then i :: j :: rest
      else j :: insert_pos strict ks i rest
  end.

Definition insertion_argsort (strict : bool) (ks : list nat) : list nat :=
  foldr (insert_pos strict ks) [] (seq 0 (length ks)).

(** Equal keys keep their order. *)
Definition stable_argsort : ArgSort := insertion_argsort false.
(** Equal keys come out in reverse order. *)
Definition unstable_argsort : ArgSort := insertion_argsort true.

(** The routine behind [kind="quicksort"] in numpy's generic build
    ([aquicksort] of [npysort/quicksort]): a range of more than 17 positions
    is partitioned around the median of its first, middle and last keys, a
    shorter one is sorted by insertion.  [tosort] is the array of positions,
    [v] the keys; ranges are given by their first and last index.  The
    original runs the two parts of a range off an explicit stack and hands a
    range over to heapsort after [2 * log2 n] nested partitions; the parts
    are disjoint, so they are sorted here one after the other, and the
    guard is left out. *)
Definition SMALL_QUICKSORT : nat := 16.

(** [v[*p]] *)
Definition key_at (v tosort : list nat) (p : nat) : nat :=
  nth (nth p tosort 0) v 0.

(** [INTP_SWAP] of the positions at [p] and [q] *)
Definition intp_swap (p q : nat) (tosort : list nat) : list nat :=
  <[p := nth q tosort 0]> (<[q := nth p tosort 0]> tosort).

(** [do ++pi; while (v[*pi] < vp);] *)
Fixpoint scan_up (fuel : nat) (v tosort : list nat) (vp pi : nat) : nat :=
  match fuel with
  | 0 => pi
  | S fuel' =>
      if bool_decide (key_at v tosort (S pi) < vp)
      then scan_up fuel' v tosort vp (S pi)
      else S pi
  end.

(** [do --pj; while (vp < v[*pj]);] *)
Fixpoint scan_down (fuel : nat) (v tosort : list nat) (vp pj : nat) : nat :=
  match fuel with
  | 0 => pj
  | S fuel' =>
      if bool_decide (vp < key_at v tosort (pj - 1))
      then scan_down fuel' v tosort vp (pj - 1)
      else pj - 1
  end.

(** The [for (;;)] loop of the partition: scan, stop when the two indices
    meet, swap otherwise. *)
Fixpoint partition_loop (fuel : nat) (v tosort : list nat) (vp pi pj : nat)
    : list nat * nat :=
  match fuel with
  | 0 => (tosort, pi)
  | S fuel' =>
      let pi' := scan_up (length tosort) v tosort vp pi in
      let pj' := scan_down (length tosort) v tosort vp pj in
      if bool_decide (pj' ≤ pi') then (tosort, pi')
      else partition_loop fuel' v (intp_swap pi' pj' tosort) vp pi' pj'
  end.

Definition partition (v tosort : list nat) (pl pr : nat) : list nat * nat :=
  let pm := pl + (pr - pl) / 2 in
  let t1 := if bool_decide (key_at v tosort pm < key_at v tosort pl)
            then intp_swap pm pl tosort else tosort in
  let t2 := if bool_decide (key_at v t1 pr < key_at v t1 pm)
            then intp_swap pr pm t1 else t1 in
  let t3 := if bool_decide (key_at v t2 pm < key_at v t2 pl)
            then intp_swap pm pl t2 else t2 in
  let vp := key_at v t3 pm in
  let pj := pr - 1 in
  let t4 := intp_swap pm pj t3 in
  let '(t5, pi) := partition_loop (length tosort) v t4 vp pl pj in
  (intp_swap pi (pr - 1) t5, pi).

(** [while (pj > pl && vp < v[*pk]) { *pj-- = *pk--; }] with [pk = pj - 1] *)
Fixpoint shift_right (fuel : nat) (v tosort : list nat) (pl vp pj : nat)
    : list nat * nat :=
  match fuel with
  | 0 => (tosort, pj)
  | S fuel' =>
      if bool_decide (pl < pj) && bool_decide (vp < key_at v tosort (pj - 1))
      then shift_right fuel' v (<[pj := nth (pj - 1) tosort 0]> tosort)
             pl vp (pj - 1)
      else (tosort, pj)
  end.

(** The insertion sort of the range [pl .. pr]. *)
Definition insertion_range (v tosort : list nat) (pl pr : nat) : list nat :=
  foldl (λ t pi,
           let vi := nth pi t 0 in
           let vp := nth vi v 0 in
           let '(t', pj) := shift_right (length t) v t pl vp pi in
           <[pj := vi]> t')
        tosort (seq (pl + 1) (pr - pl)).

Fixpoint aquicksort_range (fuel : nat) (v tosort : list nat) (pl pr : nat)
    : list nat :=
  match fuel with
  | 0 => tosort
  | S fuel' =>
      if bool_decide (SMALL_QUICKSORT < pr - pl) then
        let '(t, pi) := partition v tosort pl pr in
        let t' := aquicksort_range fuel' v t pl (pi - 1) in
        aquicksort_range fuel' v t' (pi + 1) pr
      else insertion_range v tosort pl pr
  end.

Definition npy_aquicksort : ArgSort :=
  λ v, aquicksort_range (S (length v)) v (seq 0 (length v)) 0 (length v - 1).

(* ================================================================== *)
(** * Computations over the store *)
(* ================================================================== *)

(** A computation reads and extends the store and ends in a value or in an
    exception; an exception keeps the store as it was when it was raised. *)
Definition M (A : Type) : Type := heap → (exn + A) * heap.

Definition ret {A} (a : A) : M A := λ h, (inr a, h).

Definition raise {A} (e : exn) : M A := λ h, (inl e, h).

Definition bind {A B} (m : M A) (k : A → M B) : M B :=
  λ h, match m h with
       | (inr a, h') => k a h'
       | (inl e, h') => (inl e, h')
       end.

Notation "'let*' x ':=' m 'in' k" := (bind m (λ x, k))
  (at level 10, x binder, m at level 100, k at level 200, only parsing).
Notation "m ';;' k" := (bind m (λ _, k))
  (at level 100, k at level 200, right associativity, only parsing).

(** A new object goes to the end of the store. *)
Definition alloc (o : obj) : M loc := λ h, (inr (length h), h ++ [o]).

Definition load (l : loc) : M obj :=
  λ h, match h !! l with
       | Some o => (inr o, h)
       | None => (inl TypeError, h)
       end.

Definition store (l : loc) (o : obj) : M unit := λ h, (inr (), <[l:=o]> h).

(** [for x in xs: body(x)] *)
Fixpoint for_each {A} (xs : list A) (body : A → M unit) : M unit :=
  match xs with
  | [] => ret ()
  | x :: xs' => body x;; for_each xs' body
  end.

(* ================================================================== *)
(** * The operations [cat_var] calls *)
(* ================================================================== *)

(** [df[col].unique()]: a label that is not a column of [df] raises
    [KeyError]. *)
Definition getitem_unique (df : loc) (col : string) : M (list value) :=
  let* o := load df in
  match o with
  | OTable t =>
      match t !! col with
      | Some xs => ret (unique xs)
      | None => raise (KeyError col)
      end
  | _ => raise TypeError
  end.

(** [cat_list.append(d)] mutates the list object in place. *)
Definition list_append (l : loc) (d : row) : M unit :=
  let* o := load l in
  match o with
  | ODicts ds => store l (ODicts (ds ++ [d]))
  | _ => raise TypeError
  end.

(** [for col in cols] reads the names off the list object. *)
Definition list_items (l : loc) : M (list string) :=
  let* o := load l in
  match o with
  | OList cs => ret cs
  | _ => raise TypeError
  end.

(** [pd.DataFrame(dicts)]: one row per dict, labelled 0, 1, 2, ... *)
Definition frame_of_dicts (ds : list row) : frame :=
  zip (seq 0 (length ds)) ds.

Definition DataFrame (dicts : loc) : M loc :=
  let* o := load dicts in
  match o with
  | ODicts ds => alloc (OFrame (frame_of_dicts ds))
  | _ => raise TypeError
  end.

(** The columns of a frame built from dicts are the dicts' keys: a frame
    built from no dict has none. *)
Definition frame_columns (f : frame) : list string :=
  match f with
  | [] => []
  | _ :: _ =>
      ["categorical_variable"; "number_of_possible_values"; "values"]%string
  end.

(** The rows of a frame in the order of the descending indexer of their
    counts, each with its label. *)
Definition sort_frame {AS : ArgSort} (f : frame) : frame :=
  let k := (λ ir : nat * row, number_of_possible_values ir.2) <$> f in
  let indexer := nargsort_desc k in
  take_at f indexer.

(** [f.sort_values(by="number_of_possible_values", ascending=False)]:
    a label that is not a column raises [KeyError]; otherwise the sorted
    rows go into a new frame. *)
Definition sort_values {AS : ArgSort} (fr : loc) : M loc :=
  let* o := load fr in
  match o with
  | OFrame f =>
      if decide ("number_of_possible_values"%string ∈ frame_columns f)
      then alloc (OFrame (sort_frame f))
      else raise (KeyError "number_of_possible_values")
  | _ => raise TypeError
  end.

(** The rows of a frame labelled afresh by position. *)
Definition relabel (f : frame) : frame := zip (seq 0 (length f)) f.*2.

(** [f.reset_index(drop=True)]: a new frame, the old labels dropped. *)
Definition reset_index (fr : loc) : M loc :=
  let* o := load fr in
  match o with
  | OFrame f => alloc (OFrame (relabel f))
  | _ => raise TypeError
  end.

(* ================================================================== *)
(** * [cat_var] *)
(* ================================================================== *)

(** The body of the loop: one dict per column name. *)
Definition cat_var_body (df cat_list : loc) (col : string) : M unit :=
  let* cat := getitem_unique df col in
  let cat_num := length cat in
  let cat_dict := {| categorical_variable := col;
                     number_of_possible_values := cat_num;
                     values := cat |} in
  list_append cat_list cat_dict.

(** The parameters [df] and [cols] are references into the caller's store.
    The assignment [df = pd.DataFrame(...)...] rebinds the local name only:
    it appears below as a new binder. *)
Definition cat_var {AS : ArgSort} (df cols : loc) : M loc :=
  let* cat_list := alloc (ODicts []) in
  let* names := list_items cols in
  for_each names (cat_var_body df cat_list);;
  let* frame0 := DataFrame cat_list in
  let* df' := sort_values frame0 in
  reset_index df'.

(** What the caller sees of a call: the rows of the returned frame with
    their labels, or the exception. *)
Definition call_cat_var {AS : ArgSort} (h : heap) (df cols : loc)
    : exn + frame :=
  match cat_var df cols h with
  | (inr l, h') =>
      match h' !! l with
      | Some (OFrame f) => inr f
      | _ => inl TypeError
      end
  | (inl e, _) => inl e
  end.

(* ================================================================== *)
(** * [ordinal_encoding] *)
(* ================================================================== *)

(** A Python [str] is a sequence of code points, each in
    [0 .. 0x10FFFF].  A [string] here holds the bytes of its UTF-8 form:
    one byte below U+0080, two below U+0800, three below U+10000 (the
    surrogates too, so that every code point has a form), four above.  Two
    strings are equal exactly when their byte sequences are, so [==] on
    [str] is equality of [string].  A [string] whose bytes are the form of
    no sequence of code points stands for no [str]. *)
Definition max_code_point : N := 1114111.

(** A continuation byte, [10xxxxxx]. *)
Definition continuation (b : N) : bool := (128 <=? b)%N && (b <? 192)%N.

(** The code point of a string that holds one character, and nothing for
    any other string: the empty one, one of several characters, or bytes
    that are no shortest form of a code point. *)
Definition decode_char (s : string) : option N :=
  match s with
  | String c0 EmptyString =>
      let b0 := N_of_ascii c0 in
      if (b0 <? 128)%N then Some b0 else None
  | String c0 (String c1 EmptyString) =>
      let b0 := N_of_ascii c0 in
      let b1 := N_of_ascii c1 in
      if (192 <=? b0)%N && (b0 <? 224)%N && continuation b1 then
        let n := ((b0 - 192) * 64 + (b1 - 128))%N in
        if (128 <=? n)%N then Some n else None
      else None
  | String c0 (String c1 (String c2 EmptyString)) =>
      let b0 := N_of_ascii c0 in
      let b1 := N_of_ascii c1 in
      let b2 := N_of_ascii c2 in
      if (224 <=? b0)%N && (b0 <? 240)%N && continuation b1 && continuation b2
      then
        let n := ((b0 - 224) * 4096 + (b1 - 128) * 64 + (b2 - 128))%N in
        if (2048 <=? n)%N then Some n else None
      else None
  | String c0 (String c1 (String c2 (String c3 EmptyString))) =>
      let b0 := N_of_ascii c0 in
      let b1 := N_of_ascii c1 in
      let b2 := N_of_ascii c2 in
      let b3 := N_of_ascii c3 in
      if (240 <=? b0)%N && (b0 <? 248)%N && continuation b1 && continuation b2
         && continuation b3
      then
        let n := ((b0 - 240) * 262144 + (b1 - 128) * 4096 + (b2 - 128) * 64
                  + (b3 - 128))%N in
        if (65536 <=? n)%N && (n <=? max_code_point)%N then Some n else None
      else None
  | _ => None
  end.

(** [chr(n)], the string of the one character with code point [n]. *)
Definition chr (n : N) : string :=
  if (n <? 128)%N then String (ascii_of_N n) EmptyString
  else if (n <? 2048)%N then
    String (ascii_of_N (192 + n / 64))
      (String (ascii_of_N (128 + n mod 64)) EmptyString)
  else if (n <? 65536)%N then
    String (ascii_of_N (224 + n / 4096))
      (String (ascii_of_N (128 + (n / 64) mod 64))
         (String (ascii_of_N (128 + n mod 64)) EmptyString))
  else
    String (ascii_of_N (240 + n / 262144))
      (String (ascii_of_N (128 + (n / 4096) mod 64))
         (String (ascii_of_N (128 + (n / 64) mod 64))
            (String (ascii_of_N (128 + n mod 64)) EmptyString))).

(** [ord(s)]: the code point of a string of length one; on any other string
    Python raises [TypeError], which is [None] here. *)
Definition ord (s : string) : option Z := Z.of_N <$> decode_char s.

(** [x == '?'] is false for whatever is not that string; [ord] raises
    [TypeError] on anything but a string of length one. *)
Definition ordinal_encoding (x : value) : exn + Z :=
  if decide (x = Str "?") then inr 27%Z
  else match x with
       | Str s =>
           match ord s with
           | Some n => inr (n - 96)%Z
           | None => inl TypeError
           end
       | _ => inl TypeError
       end.

(** The mushroom table of the spec's scenario, at two references of a
    store, and the lower-case alphabet. *)
Definition scenario_table : table :=
  {[ "odor"%string := [Str "n"; Str "f"; Str "n"; Str "y"];
     "bruises"%string := [Str "t"; Str "f"] ]}.

Definition scenario_heap : heap :=
  [OTable scenario_table; OList ["odor"; "bruises"]%string].

(** The same table with no name requested. *)
Definition no_cols_heap : heap := [OTable scenario_table; OList []].

(** A name that is not a column, after one that is. *)
Definition missing_heap : heap :=
  [OTable scenario_table; OList ["odor"; "habitat"; "bruises"]%string].

(** Two columns with two values each. *)
Definition tie_table : table :=
  {[ "a"%string := [Str "x"; Str "y"];
     "b"%string := [Str "p"; Str "q"] ]}.

Definition tie_heap : heap := [OTable tie_table; OList ["a"; "b"]%string].

(** Eighteen columns of two values each. *)
Definition wide_names : list string :=
  ["c01"; "c02"; "c03"; "c04"; "c05"; "c06"; "c07"; "c08"; "c09";
   "c10"; "c11"; "c12"; "c13"; "c14"; "c15"; "c16"; "c17"; "c18"]%string.

Definition wide_table : table :=
  list_to_map ((λ c, (c, [Str "t"; Str "f"])) <$> wide_names).

Definition wide_heap : heap := [OTable wide_table; OList wide_names].

Definition alphabet : list ascii :=
  list_ascii_of_string "abcdefghijklmnopqrstuvwxyz".


(* ================================================================== *)
(** * What a call computes, read off the table and the names *)
(* ================================================================== *)

(** The dicts that the loop appends, in the order of the names, and the
    name at which it stopped, if it did. *)
Fixpoint collect (t : table) (cs : list string) : list row * option string :=
  match cs with
  | [] => ([], None)
  | c :: cs' =>
      match t !! c with
      | None => ([], Some c)
      | Some xs =>
          let '(rows, stop) := collect t cs' in
          (Row c (length (unique xs)) (unique xs) :: rows, stop)
      end
  end.

(** The rows in the order of the descending indexer. *)
Definition sorted_rows {AS : ArgSort} (rows : list row) : list row :=
  take_at rows (nargsort_desc (number_of_possible_values <$> rows)).

Definition summarize {AS : ArgSort} (t : table) (cs : list string)
    : exn + frame :=
  match collect t cs with
  | (_, Some c) => inl (KeyError c)
  | ([], None) => inl (KeyError "number_of_possible_values")
  | (rows, None) => inr (relabel (sort_frame (frame_of_dicts rows)))
  end.

(** The objects that a call adds to the store, in order. *)
Definition allocated {AS : ArgSort} (t : table) (cs : list string) : list obj :=
  match collect t cs with
  | (rows, Some _) => [ODicts rows]
  | ([], None) => [ODicts []; OFrame []]
  | (rows, None) =>
      let f0 := frame_of_dicts rows in
      let f1 := sort_frame f0 in
      [ODicts rows; OFrame f0; OFrame f1; OFrame (relabel f1)]
  end.

(** Row [r] is the summary of column [c] of [t]. *)
Definition summary_of (t : table) (c : string) (r : row) : Prop :=
  ∃ xs, t !! c = Some xs ∧ r = Row c (length (unique xs)) (unique xs).

(** Every name is a column of the table. *)
Definition all_present (t : table) (cs : list string) : Prop :=
  Forall (λ c, is_Some (t !! c)) cs.

(* ================================================================== *)
(** * The encoding cell *)
(* ================================================================== *)

(** The cell after [ordinal_encoding] copies the categorical columns of the
    table and replaces each of them by its codes:
    [mushrooms_encoded = mushrooms[cat_cols].copy()], then for every [col]
    of [cat_cols]
    [mushrooms_encoded[col] = mushrooms_encoded[col].apply(ordinal_encoding)].
    The next cell but one calls [cat_var(mushrooms_encoded, cat_cols)]. *)

(** The message of the [KeyError] that selecting a list of labels raises,
    from the labels asked for and those that are not columns.  Its wording
    is the library's. *)
Class IndexMessage : Type := not_in_index : list string → list string → string.

(** The columns of [t] with a label of [cs].  A label given twice would
    give two columns of that label, which a table cannot hold; the lists
    of the notebook have no label twice. *)
Definition select (t : table) (cs : list string) : table :=
  filter (λ kv : string * list value, kv.1 ∈ cs) t.

(** [df[cols]] for a list of labels: a new frame of the listed columns;
    [KeyError] if one of the labels is not a column. *)
Definition getitem_list {IM : IndexMessage} (df cols : loc) : M loc :=
  let* o := load df in
  let* names := list_items cols in
  match o with
  | OTable t =>
      let missing := filter (λ c, t !! c = None) names in
      if decide (missing = []) then alloc (OTable (select t names))
      else raise (KeyError (not_in_index names missing))
  | _ => raise TypeError
  end.

(** [df.copy()]: a new object with the same content. *)
Definition copy (df : loc) : M loc :=
  let* o := load df in
  alloc o.

(** [df[col]] *)
Definition getitem (df : loc) (col : string) : M (list value) :=
  let* o := load df in
  match o with
  | OTable t =>
      match t !! col with
      | Some xs => ret xs
      | None => raise (KeyError col)
      end
  | _ => raise TypeError
  end.

(** [s.apply(f)]: [f] on every cell in turn; the first exception ends the
    call.  The results of [ordinal_encoding] are integers. *)
Fixpoint series_apply (f : value → exn + Z) (xs : list value)
    : exn + list value :=
  match xs with
  | [] => inr []
  | x :: xs' =>
      match f x with
      | inl e => inl e
      | inr z =>
          match series_apply f xs' with
          | inl e => inl e
          | inr ys => inr (Int z :: ys)
          end
      end
  end.

(** [df[col] = ys] mutates the frame in place. *)
Definition setitem (df : loc) (col : string) (ys : list value) : M unit :=
  let* o := load df in
  match o with
  | OTable t => store df (OTable (<[col := ys]> t))
  | _ => raise TypeError
  end.

(** The body of the loop. *)
Definition encode_body (mushrooms_encoded : loc) (col : string) : M unit :=
  let* xs := getitem mushrooms_encoded col in
  match series_apply ordinal_encoding xs with
  | inl e => raise e
  | inr ys => setitem mushrooms_encoded col ys
  end.

(** The loop of the cell. *)
Definition encode_loop (mushrooms_encoded cat_cols : loc) : M unit :=
  let* names := list_items cat_cols in
  for_each names (encode_body mushrooms_encoded).

(** The cell; it leaves the reference to the encoded frame. *)
Definition encode_cell {IM : IndexMessage} (mushrooms cat_cols : loc)
    : M loc :=
  let* selected := getitem_list mushrooms cat_cols in
  let* mushrooms_encoded := copy selected in
  encode_loop mushrooms_encoded cat_cols;;
  ret mushrooms_encoded.

(** The cell followed by [cat_var(mushrooms_encoded, cat_cols)]. *)
Definition encode_and_check {AS : ArgSort} {IM : IndexMessage}
    (mushrooms cat_cols : loc) : M loc :=
  let* mushrooms_encoded := encode_cell mushrooms cat_cols in
  cat_var mushrooms_encoded cat_cols.

(** The frame at the reference that a computation returns. *)
Definition returned_frame (res : (exn + loc) * heap) : exn + frame :=
  match res with
  | (inr l, h') =>
      match h' !! l with
      | Some (OFrame f) => inr f
      | _ => inl TypeError
      end
  | (inl e, _) => inl e
  end.

(** What the loop does to a table, read off the table and the names: the
    exception at which it stops, if it does, and the table it leaves. *)
Fixpoint encode_cols (t : table) (cs : list string) : option exn * table :=
  match cs with
  | [] => (None, t)
  | c :: cs' =>
      match t !! c with
      | None => (Some (KeyError c), t)
      | Some xs =>
          match series_apply ordinal_encoding xs with
          | inl e => (Some e, t)
          | inr ys => encode_cols (<[c := ys]> t) cs'
          end
      end
  end.

(** A string of one character, whatever its code point. *)
Definition one_char (v : value) : Prop :=
  ∃ n : N, (n ≤ max_code_point)%N ∧ v = Str (chr n).

(** [y] is the code of [x]. *)
Definition code_of (x y : value) : Prop :=
  ∃ z, ordinal_encoding x = inr z ∧ y = Int z.

(** The cell [v] after the loop, where [ordinal_encoding] returns. *)
Definition code (v : value) : value :=
  match ordinal_encoding v with
  | inr z => Int z
  | inl _ => v
  end.

(** Row [r'] is row [r] with its values replaced by their codes. *)
Definition row_encoded (r r' : row) : Prop :=
  categorical_variable r = categorical_variable r' ∧
  number_of_possible_values r = number_of_possible_values r' ∧
  Forall2 code_of (values r) (values r').

(** The column does not hold both ['?'] and ['{'], the two cells with the
    same code. *)
Definition no_collision (xs : list value) : Prop :=
  ¬ (Str "?" ∈ xs ∧ Str "{" ∈ xs).

(** A message format to run the cell with. *)
Definition plain_message : IndexMessage :=
  λ _ missing, String.append (String.concat ", " missing) " not in index".

(** A table with a missing marker and with a cell that is not a string. *)
Definition marked_table : table :=
  {[ "stalk-root"%string := [Str "e"; Str "?"; Str "{"; Str "e"];
     "ring-number"%string := [Str "o"; Int 2; Str "t"; Str "o"] ]}.

Definition marked_heap : heap :=
  [OTable marked_table; OList ["stalk-root"; "ring-number"]%string;
   OList ["stalk-root"]%string].

(** A table whose cells are characters beyond the Latin letters. *)
Definition signs_table : table :=
  {[ "sign"%string := [Str "é"; Str "€"; Str "𝄞"; Str "€"] ]}.

Definition signs_heap : heap :=
  [OTable signs_table; OList ["sign"]%string].

(** The scenario table with its two names in both orders. *)
Definition both_orders_heap : heap :=
  [OTable scenario_table; OList ["odor"; "bruises"]%string;
   OList ["bruises"; "odor"]%string].

(* ================================================================== *)
(** * Lemmas on [unique] *)
(* ================================================================== *)

Lemma elem_of_unique_from seen xs x :
  x ∈ unique_from seen xs ↔ x ∈ xs ∧ x ∉ seen.
Proof.
  revert seen. induction xs as [|y xs IH]; intros seen; simpl.
  - set_solver.
  - case_decide as Hy.
    + rewrite IH. set_solver.
    + rewrite elem_of_cons, IH.
      destruct (decide (x = y)) as [->|Hne]; set_solver.
Qed.

Lemma NoDup_unique_from seen xs : NoDup (unique_from seen xs).
Proof.
  revert seen. induction xs as [|y xs IH]; intros seen; simpl.
  - constructor.
  - case_decide; [apply IH|].
    constructor; [|apply IH].
    rewrite elem_of_unique_from. set_solver.
Qed.

Lemma elem_of_unique xs x : x ∈ unique xs ↔ x ∈ xs.
Proof. unfold unique. rewrite elem_of_unique_from. set_solver. Qed.

Lemma length_unique xs :
  length (unique xs) = size (list_to_set xs : gset value).
Proof.
  rewrite <- (size_list_to_set (C := gset value) (unique xs))
    by apply NoDup_unique_from.
  f_equal. apply set_eq. intros x.
  rewrite !elem_of_list_to_set. apply elem_of_unique.
Qed.

(* ================================================================== *)
(** * Lemmas on indexing and on sorted sequences *)
(* ================================================================== *)

Section take_at.
Context {A : Type}.
Implicit Types (a : list A) (p : list nat).

Lemma take_at_seq_app pre a :
  omap (λ i, (pre ++ a) !! i) (seq (length pre) (length a)) = a.
Proof.
  revert pre. induction a as [|x a IH]; intros pre; [done|].
  cbn [length seq]. cbn. rewrite list_lookup_middle by done. cbn.
  f_equal. specialize (IH (pre ++ [x])).
  rewrite length_app, <- app_assoc in IH. cbn in IH.
  by rewrite Nat.add_1_r in IH.
Qed.

Lemma take_at_seq a : take_at a (seq 0 (length a)) = a.
Proof. apply (take_at_seq_app []). Qed.

Lemma take_at_nth d a p :
  Forall (λ i, i < length a) p → take_at a p = (λ i, nth i a d) <$> p.
Proof.
  induction 1 as [|i p Hi _ IH]; [done|].
  unfold take_at in *. cbn.
  destruct (nth_lookup_or_length a i d) as [->|]; [|lia].
  cbn. by rewrite IH.
Qed.

Lemma take_at_fmap {B} (g : A → B) a p :
  g <$> take_at a p = take_at (g <$> a) p.
Proof.
  unfold take_at. rewrite list_fmap_omap.
  apply list_omap_ext, Forall2_same_length_lookup_2; [done|].
  intros i x y Hx Hy. rewrite list_lookup_fmap. congruence.
Qed.

Lemma take_at_perm a p :
  p ≡ₚ seq 0 (length a) → take_at a p ≡ₚ a.
Proof.
  intros Hp. unfold take_at. rewrite Hp.
  by rewrite <- (take_at_seq a) at 2.
Qed.
End take_at.

Lemma nth_seq_fmap {A} (d : A) (a : list A) :
  (λ i, nth i a d) <$> seq 0 (length a) = a.
Proof.
  rewrite <- (take_at_nth d); [apply take_at_seq|].
  apply Forall_seq. intros; lia.
Qed.

Lemma perm_seq_lt (p : list nat) n :
  p ≡ₚ seq 0 n → Forall (λ i, i < n) p.
Proof.
  intros Hp. rewrite Hp. apply Forall_seq. intros; lia.
Qed.

Section strongly_sorted.
Context {A : Type}.
Implicit Types (R : relation A) (l : list A).

Lemma StronglySorted_reverse R l :
  StronglySorted R l → StronglySorted (flip R) (reverse l).
Proof.
  induction 1 as [|x l _ IH Hx]; [constructor|].
  rewrite reverse_cons. apply StronglySorted_app_2; [|done|].
  - intros y z Hy Hz. apply list_elem_of_singleton in Hz as ->.
    rewrite elem_of_reverse in Hy. unfold flip.
    by eapply Forall_forall in Hx.
  - repeat constructor.
Qed.

Lemma StronglySorted_impl_elem R R' l :
  (∀ x y, x ∈ l → y ∈ l → R x y → R' x y) →
  StronglySorted R l → StronglySorted R' l.
Proof.
  intros HR Hl. induction Hl as [|x l _ IH Hx]; constructor.
  - apply IH. intros y z Hy Hz. apply HR; by right.
  - apply Forall_forall. intros y Hy. apply HR; [by left|by right|].
    by eapply Forall_forall in Hx.
Qed.

Lemma StronglySorted_filter R (P : A → Prop) `{∀ x, Decision (P x)} l :
  StronglySorted R l → StronglySorted R (filter P l).
Proof.
  induction 1 as [|x l _ IH Hx]; [constructor|].
  rewrite filter_cons. case_decide; [|done].
  constructor; [done|].
  apply Forall_forall. intros y Hy%list_elem_of_filter.
  eapply Forall_forall in Hx; [done|]. tauto.
Qed.
End strongly_sorted.

(* ================================================================== *)
(** * The descending indexer *)
(* ================================================================== *)

Lemma nth_reverse_seq n j :
  j < n → nth j (reverse (seq 0 n)) 0 = n - S j.
Proof.
  intros Hj. apply nth_lookup_Some.
  rewrite reverse_lookup, length_seq by (rewrite length_seq; lia).
  apply lookup_seq. lia.
Qed.

Lemma nth_reverse (ks : list nat) j :
  j < length ks → nth j (reverse ks) 0 = nth (length ks - S j) ks 0.
Proof.
  intros Hj. rewrite !nth_lookup. by rewrite reverse_lookup.
Qed.

Section nargsort.
Context `{!ArgSort, !ArgSortOk}.

Lemma argsort_lt ks : Forall (λ i, i < length ks) (argsort ks).
Proof. apply perm_seq_lt, argsort_perm. Qed.

Lemma nargsort_desc_perm ks : nargsort_desc ks ≡ₚ seq 0 (length ks).
Proof.
  unfold nargsort_desc. rewrite reverse_Permutation, take_at_perm.
  - apply reverse_Permutation.
  - rewrite length_reverse, length_seq, <- (length_reverse ks).
    apply argsort_perm.
Qed.

Lemma nargsort_desc_lt ks : Forall (λ i, i < length ks) (nargsort_desc ks).
Proof. apply perm_seq_lt, nargsort_desc_perm. Qed.

Lemma nargsort_desc_keys ks :
  (λ i, nth i ks 0) <$> nargsort_desc ks =
  reverse ((λ j, nth j (reverse ks) 0) <$> argsort (reverse ks)).
Proof.
  unfold nargsort_desc.
  rewrite fmap_reverse, take_at_fmap, fmap_reverse, nth_seq_fmap.
  f_equal. apply take_at_nth, argsort_lt.
Qed.

Lemma nargsort_desc_sorted ks :
  Sorted (flip le) ((λ i, nth i ks 0) <$> nargsort_desc ks).
Proof. rewrite nargsort_desc_keys. apply Sorted_reverse, argsort_sorted. Qed.

Lemma nargsort_desc_stable `{!ArgSortStable} ks :
  StronglySorted (stable_gt ks) (nargsort_desc ks).
Proof.
  unfold nargsort_desc. set (n := length ks).
  pose proof (argsort_lt (reverse ks)) as Hlt.
  rewrite length_reverse in Hlt. fold n in Hlt.
  rewrite (take_at_nth 0) by by rewrite length_reverse, length_seq.
  apply (StronglySorted_reverse (flip (stable_gt ks))).
  apply (StronglySorted_fmap _
    (λ x y, x < n ∧ y < n ∧ stable_lt (reverse ks) x y)).
  - intros x y (Hx & Hy & Hxy). unfold flip, stable_gt, stable_lt in *.
    rewrite !nth_reverse_seq by done.
    rewrite !nth_reverse in Hxy by done. fold n in Hxy. lia.
  - eapply StronglySorted_impl_elem; [|apply argsort_stable].
    intros x y Hx Hy Hxy. rewrite Forall_forall in Hlt.
    split_and!; auto.
Qed.
End nargsort.

(* ================================================================== *)
(** * The two insertion routines honour the contract *)
(* ================================================================== *)

Section insertion.
Variables (strict : bool) (ks : list nat).
Local Abbreviation key i := (nth i ks 0).

Lemma insert_pos_perm i l : insert_pos strict ks i l ≡ₚ i :: l.
Proof.
  induction l as [|j l IH]; [done|]. simpl.
  destruct strict; case_bool_decide; try done;
    by rewrite IH, Permutation_swap.
Qed.

Lemma insertion_perm l : foldr (insert_pos strict ks) [] l ≡ₚ l.
Proof.
  induction l as [|i l IH]; [done|]. simpl.
  by rewrite insert_pos_perm, IH.
Qed.

Lemma insert_pos_sorted i l :
  StronglySorted (λ a b, key a ≤ key b) l →
  StronglySorted (λ a b, key a ≤ key b) (insert_pos strict ks i l).
Proof.
  induction 1 as [|j l Hl IH Hj]; [repeat constructor|]. simpl.
  assert (Hcase : ∀ b : bool,
    (b = true → key i ≤ key j) → (b = false → key j ≤ key i) →
    StronglySorted (λ a b, key a ≤ key b)
      (if b then i :: j :: l else j :: insert_pos strict ks i l)).
  { intros [] Ht Hf.
    - constructor; [by constructor|]. constructor; [auto|].
      eapply Forall_impl; [exact Hj|]. intros r Hr. cbn in Hr.
      specialize (Ht eq_refl). lia.
    - constructor; [done|]. rewrite insert_pos_perm.
      constructor; [auto|done]. }
  destruct strict; apply Hcase; intros Hb.
  - apply bool_decide_eq_true in Hb. lia.
  - apply bool_decide_eq_false in Hb. lia.
  - by apply bool_decide_eq_true in Hb.
  - apply bool_decide_eq_false in Hb. lia.
Qed.

Lemma insertion_sorted l :
  StronglySorted (λ a b, key a ≤ key b)
    (foldr (insert_pos strict ks) [] l).
Proof.
  induction l as [|i l IH]; [constructor|]. simpl.
  by apply insert_pos_sorted.
Qed.
End insertion.

Lemma insert_pos_stable ks i l :
  Forall (λ j, i < j) l →
  StronglySorted (stable_lt ks) l →
  StronglySorted (stable_lt ks) (insert_pos false ks i l).
Proof.
  intros Hi Hl. induction Hl as [|j l Hl IH Hj]; [repeat constructor|].
  apply Forall_cons in Hi as [Hij Hi]. simpl. case_bool_decide as Hk.
  - constructor; [by constructor|]. constructor.
    + unfold stable_lt. lia.
    + rewrite Forall_forall in Hi, Hj. apply Forall_forall. intros r Hr.
      specialize (Hi r Hr). specialize (Hj r Hr).
      unfold stable_lt in *. lia.
  - constructor; [auto|]. rewrite insert_pos_perm.
    constructor; [|done]. unfold stable_lt. lia.
Qed.

Lemma insertion_stable ks l :
  StronglySorted lt l →
  StronglySorted (stable_lt ks) (foldr (insert_pos false ks) [] l).
Proof.
  induction 1 as [|i l Hl IH Hi]; [constructor|]. simpl.
  apply insert_pos_stable; [|done].
  by rewrite insertion_perm.
Qed.

Lemma seq_strongly_sorted a n : StronglySorted lt (seq a n).
Proof.
  revert a. induction n as [|n IH]; intros a; constructor; [apply IH|].
  apply Forall_seq. intros; lia.
Qed.

Lemma insertion_argsort_ok strict :
  @ArgSortOk (insertion_argsort strict).
Proof.
  split; intros ks; unfold argsort, insertion_argsort.
  - apply insertion_perm.
  - apply (Sorted_fmap _ (λ a b, nth a ks 0 ≤ nth b ks 0)); [auto|].
    apply StronglySorted_Sorted, insertion_sorted.
Qed.

Lemma stable_argsort_ok : @ArgSortOk stable_argsort.
Proof. apply insertion_argsort_ok. Qed.

Lemma unstable_argsort_ok : @ArgSortOk unstable_argsort.
Proof. apply insertion_argsort_ok. Qed.

Lemma stable_argsort_stable : @ArgSortStable stable_argsort.
Proof.
  intros ks. unfold argsort, stable_argsort, insertion_argsort.
  apply insertion_stable, seq_strongly_sorted.
Qed.

(* ================================================================== *)
(** * Running [cat_var] *)
(* ================================================================== *)

Lemma collect_present t cs :
  all_present t cs →
  ∃ rows, collect t cs = (rows, None) ∧ Forall2 (summary_of t) cs rows.
Proof.
  induction 1 as [|c cs [xs Hc] _ (rows & Hrows & IH)]; simpl.
  - by exists [].
  - rewrite Hc, Hrows. eexists; split; [done|].
    constructor; [|done]. by exists xs.
Qed.

Lemma collect_absent t cs :
  ¬ all_present t cs →
  ∃ rows c, collect t cs = (rows, Some c) ∧ c ∈ cs ∧ t !! c = None.
Proof.
  induction cs as [|c cs IH]; intros Hn; simpl.
  - destruct Hn. constructor.
  - destruct (t !! c) as [xs|] eqn:Hc.
    + destruct IH as (rows & c' & -> & Hin & Hc').
      { intros Hcs. apply Hn. by constructor. }
      eexists _, c'. split_and!; [done|by right|done].
    + exists [], c. split_and!; [done|by left|done].
Qed.

Lemma collect_stop t cs rows c :
  collect t cs = (rows, Some c) →
  t !! c = None ∧
  ∃ pre post, cs = pre ++ c :: post ∧ all_present t pre ∧
              Forall2 (summary_of t) pre rows.
Proof.
  revert rows. induction cs as [|c' cs IH]; intros rows; simpl; [done|].
  destruct (t !! c') as [xs|] eqn:Hc.
  - destruct (collect t cs) as [rows' stop]. intros [= <- ->].
    destruct (IH _ eq_refl) as (Hn & pre & post & -> & Hp & Hr).
    split; [done|]. exists (c' :: pre), post.
    split_and!; [done|by constructor|].
    constructor; [by exists xs|done].
  - intros [= <- <-]. split; [done|].
    exists [], cs. split_and!; [done|constructor|constructor].
Qed.

Section run.
Context `{!ArgSort}.
Variables (h : heap) (df cols : loc) (t : table) (cs : list string).
Hypothesis Hdf : h !! df = Some (OTable t).
Hypothesis Hcols : h !! cols = Some (OList cs).

Lemma load_old l o g : h !! l = Some o → load l (h ++ g) = (inr o, h ++ g).
Proof.
  intros Hl. unfold load.
  by rewrite lookup_app_l, Hl by by eapply lookup_lt_Some.
Qed.

Lemma load_new g1 o g2 :
  load (length (h ++ g1)) (h ++ g1 ++ o :: g2) = (inr o, h ++ g1 ++ o :: g2).
Proof.
  unfold load. by rewrite app_assoc, list_lookup_middle.
Qed.

Lemma run_body c acc :
  cat_var_body df (length h) c (h ++ [ODicts acc]) =
  match t !! c with
  | Some xs =>
      (inr (), h ++ [ODicts (acc ++ [Row c (length (unique xs)) (unique xs)])])
  | None => (inl (KeyError c), h ++ [ODicts acc])
  end.
Proof.
  unfold cat_var_body, getitem_unique, bind.
  rewrite (load_old _ _ _ Hdf).
  destruct (t !! c) as [xs|]; simpl; [|done].
  unfold list_append, bind, store.
  pose proof (load_new [] (ODicts acc) []) as Hl.
  rewrite app_nil_r in Hl. simpl in Hl. rewrite Hl.
  rewrite (insert_app_r_alt h) by done. by rewrite Nat.sub_diag.
Qed.

(** The loop, started with [acc] in the list object. *)
Lemma run_loop names acc :
  for_each names (cat_var_body df (length h)) (h ++ [ODicts acc]) =
  (match (collect t names).2 with
   | Some c => inl (KeyError c)
   | None => inr ()
   end, h ++ [ODicts (acc ++ (collect t names).1)]).
Proof.
  revert acc. induction names as [|c names IH]; intros acc; simpl.
  - by rewrite app_nil_r.
  - unfold bind. rewrite run_body.
    destruct (t !! c) as [xs|] eqn:Hc; simpl; [|by rewrite app_nil_r].
    rewrite IH. destruct (collect t names) as [rows stop]. simpl.
    by rewrite <- app_assoc.
Qed.

Lemma run_cat_var :
  cat_var df cols h =
  (match summarize t cs with
   | inl e => inl e
   | inr _ => inr (length h + 3)
   end, h ++ allocated t cs).
Proof.
  unfold cat_var. unfold bind at 1. unfold alloc at 1.
  unfold bind at 1. unfold list_items, bind at 1.
  rewrite (load_old _ _ _ Hcols). unfold ret at 1.
  unfold bind at 1. rewrite run_loop. simpl.
  unfold summarize, allocated.
  destruct (collect t cs) as [rows [c|]]; simpl; [by destruct rows|].
  unfold bind at 1. unfold DataFrame, bind at 1.
  pose proof (load_new [] (ODicts rows) []) as Hl.
  rewrite app_nil_r in Hl. simpl in Hl. rewrite Hl. unfold alloc at 1.
  rewrite length_app. simpl.
  unfold bind at 1. unfold sort_values, bind at 1.
  pose proof (load_new [ODicts rows] (OFrame (frame_of_dicts rows)) [])
    as Hl2.
  rewrite length_app in Hl2. simpl in Hl2.
  rewrite <- app_assoc. simpl. rewrite Hl2.
  destruct rows as [|r rows]; [done|].
  rewrite decide_True by (simpl; set_solver).
  unfold alloc at 1. rewrite length_app. simpl length.
  unfold reset_index, bind.
  set (f0 := frame_of_dicts (r :: rows)).
  pose proof (load_new [ODicts (r :: rows); OFrame f0]
    (OFrame (sort_frame f0)) []) as Hl3.
  rewrite length_app in Hl3. simpl in Hl3.
  rewrite <- app_assoc. simpl. rewrite Hl3.
  unfold alloc. rewrite length_app. simpl.
  rewrite <- app_assoc. simpl. reflexivity.
Qed.

Lemma run_call_cat_var : call_cat_var h df cols = summarize t cs.
Proof.
  unfold call_cat_var. rewrite run_cat_var.
  unfold summarize, allocated.
  destruct (collect t cs) as [[|r rows] [c|]]; try done.
  by rewrite lookup_app_r, Nat.add_comm, Nat.add_sub by lia.
Qed.
End run.

(* ================================================================== *)
(** * The rows of a returned frame *)
(* ================================================================== *)

Lemma filter_fmap {A B} (g : A → B) (P : B → Prop) `{∀ y, Decision (P y)}
    (l : list A) :
  filter P (g <$> l) = g <$> filter (λ x, P (g x)) l.
Proof.
  induction l as [|x l IH]; [done|]. csimpl.
  rewrite !filter_cons. case_decide; csimpl; by rewrite IH.
Qed.

Lemma Sorted_adjacent {A} (R : relation A) l i x y :
  Sorted R l → l !! i = Some x → l !! S i = Some y → R x y.
Proof.
  intros Hl. revert i. induction Hl as [|z l Hl IH Hz]; intros i; [done|].
  destruct i as [|i]; simpl.
  - intros [= ->] Hy. destruct Hz as [|w l Hw]; [done|].
    by injection Hy as ->.
  - apply IH.
Qed.

Lemma collect_rows t cs rows :
  collect t cs = (rows, None) →
  all_present t cs ∧ Forall2 (summary_of t) cs rows.
Proof.
  revert rows. induction cs as [|c cs IH]; intros rows; simpl.
  - intros [= <-]. split; constructor.
  - destruct (t !! c) as [xs|] eqn:Hc; [|done].
    destruct (collect t cs) as [rows' stop]. intros [= <- ->].
    destruct (IH _ eq_refl) as [Hp Hr].
    split; constructor; try done. by exists xs.
Qed.

Lemma summary_names t cs rows :
  Forall2 (summary_of t) cs rows → categorical_variable <$> rows = cs.
Proof.
  induction 1 as [|c r cs rows (xs & _ & ->) _ IH]; [done|].
  csimpl. by rewrite IH.
Qed.

Lemma summary_elem_of t cs rows r :
  Forall2 (summary_of t) cs rows → r ∈ rows →
  ∃ c, c ∈ cs ∧ summary_of t c r.
Proof.
  induction 1 as [|c r' cs rows Hr' _ IH]; [by intros ?%elem_of_nil|].
  rewrite elem_of_cons. intros [->|Hr].
  - exists c. split; [by left|done].
  - destruct (IH Hr) as (c' & Hc' & Hs). exists c'. split; [by right|done].
Qed.

Lemma summary_elem_of_l t cs rows c :
  Forall2 (summary_of t) cs rows → c ∈ cs →
  ∃ r, r ∈ rows ∧ summary_of t c r.
Proof.
  induction 1 as [|c' r' cs rows Hr' _ IH]; [by intros ?%elem_of_nil|].
  rewrite elem_of_cons. intros [->|Hc].
  - exists r'. split; [by left|done].
  - destruct (IH Hc) as (r & Hr & Hs). exists r. split; [by right|done].
Qed.

Lemma summary_count t c r :
  summary_of t c r →
  categorical_variable r = c ∧
  number_of_possible_values r = length (values r) ∧
  ∃ xs, t !! c = Some xs ∧
        number_of_possible_values r = size (list_to_set xs : gset value).
Proof.
  intros (xs & Hc & ->). simpl. split_and!; [done..|].
  exists xs. split; [done|]. apply length_unique.
Qed.

Lemma frame_of_dicts_snd rows : (frame_of_dicts rows).*2 = rows.
Proof. apply snd_zip. by rewrite length_seq. Qed.

Lemma relabel_fst f : (relabel f).*1 = seq 0 (length f).
Proof. apply fst_zip. by rewrite length_seq, length_fmap. Qed.

Lemma relabel_snd f : (relabel f).*2 = f.*2.
Proof. apply snd_zip. by rewrite length_seq, length_fmap. Qed.

Lemma sort_frame_snd `{!ArgSort} rows :
  (sort_frame (frame_of_dicts rows)).*2 = sorted_rows rows.
Proof.
  unfold sort_frame, sorted_rows.
  rewrite take_at_fmap, frame_of_dicts_snd. do 2 f_equal.
  rewrite <- (frame_of_dicts_snd rows) at 2.
  by rewrite <- list_fmap_compose.
Qed.

Section sorted_rows.
Context `{!ArgSort, !ArgSortOk}.
Implicit Types rows : list row.

Lemma sorted_rows_perm rows : sorted_rows rows ≡ₚ rows.
Proof.
  apply take_at_perm.
  rewrite <- (length_fmap number_of_possible_values).
  apply nargsort_desc_perm.
Qed.

Lemma sorted_rows_sorted rows :
  Sorted (flip le) (number_of_possible_values <$> sorted_rows rows).
Proof.
  unfold sorted_rows. rewrite take_at_fmap.
  rewrite (take_at_nth 0) by apply nargsort_desc_lt.
  apply nargsort_desc_sorted.
Qed.

Lemma sort_frame_length rows :
  length (sort_frame (frame_of_dicts rows)) = length rows.
Proof.
  rewrite <- (length_fmap snd), sort_frame_snd.
  apply Permutation_length, sorted_rows_perm.
Qed.

(** Rows of equal count stay in their order if the routine is stable. *)
Lemma sorted_rows_stable `{!ArgSortStable} rows k :
  filter (λ r, number_of_possible_values r = k) (sorted_rows rows) =
  filter (λ r, number_of_possible_values r = k) rows.
Proof.
  set (ks := number_of_possible_values <$> rows).
  set (d := Row "" 0 []).
  assert (Hkey : ∀ i, number_of_possible_values (nth i rows d) = nth i ks 0).
  { intros i. unfold ks.
    by rewrite <- (map_nth number_of_possible_values). }
  assert (Hlen : length ks = length rows) by apply length_fmap.
  unfold sorted_rows. fold ks.
  rewrite (take_at_nth d)
    by (rewrite <- Hlen; apply nargsort_desc_lt).
  trans (filter (λ r, number_of_possible_values r = k)
           ((λ i, nth i rows d) <$> seq 0 (length rows)));
    [|by rewrite nth_seq_fmap].
  rewrite !filter_fmap. f_equal.
  apply (StronglySorted_unique_strong lt).
  - intros; lia.
  - eapply StronglySorted_impl_elem;
      [|apply StronglySorted_filter, (nargsort_desc_stable ks)].
    intros x y [Hx _]%list_elem_of_filter [Hy _]%list_elem_of_filter.
    rewrite Hkey in Hx, Hy. unfold stable_gt. lia.
  - apply StronglySorted_filter, seq_strongly_sorted.
  - rewrite <- Hlen. by rewrite (nargsort_desc_perm ks).
Qed.
End sorted_rows.

Section summarize.
Context `{!ArgSort, !ArgSortOk}.

(** A frame is returned exactly for a non-empty list of present names;
    its rows are the summaries of the names, rearranged. *)
Lemma summarize_inr t cs fr :
  summarize t cs = inr fr →
  cs ≠ [] ∧ all_present t cs ∧
  ∃ rows, Forall2 (summary_of t) cs rows ∧
          fr.*1 = seq 0 (length cs) ∧ fr.*2 = sorted_rows rows.
Proof.
  unfold summarize.
  destruct (collect t cs) as [rows [c|]] eqn:Hc; [by destruct rows|].
  apply collect_rows in Hc as [Hp Hr].
  destruct rows as [|r rows]; [done|]. intros [= <-].
  split_and!; [intros ->; inv Hr|done|].
  exists (r :: rows). split_and!; [done| |].
  - rewrite relabel_fst, sort_frame_length.
    by rewrite (Forall2_length _ _ _ Hr).
  - by rewrite relabel_snd, sort_frame_snd.
Qed.

Lemma summarize_present t cs :
  all_present t cs → cs ≠ [] → ∃ fr, summarize t cs = inr fr.
Proof.
  intros (rows & Hc & Hr)%collect_present Hne. unfold summarize.
  rewrite Hc. destruct Hr; [done|]. eauto.
Qed.

Lemma summarize_inl t cs e :
  summarize t cs = inl e →
  (cs = [] ∧ e = KeyError "number_of_possible_values") ∨
  (∃ c, e = KeyError c ∧ c ∈ cs ∧ t !! c = None).
Proof.
  unfold summarize.
  destruct (collect t cs) as [rows [c|]] eqn:Hc.
  - apply collect_stop in Hc as (Hn & pre & post & -> & _).
    intros He. right. exists c.
    split_and!; [by destruct rows; injection He|set_solver|done].
  - apply collect_rows in Hc as [_ Hr].
    destruct Hr; [|done]. intros [= <-]. by left.
Qed.
End summarize.

(* ================================================================== *)
(** * Properties of [cat_var] *)
(* ================================================================== *)

Lemma all_present_scenario :
  all_present scenario_table ["odor"; "bruises"]%string.
Proof. repeat constructor; eexists; reflexivity. Qed.

Lemma all_present_tie : all_present tie_table ["a"; "b"]%string.
Proof. repeat constructor; eexists; reflexivity. Qed.

(** Against C1 as stated: a call on an empty list of names, all of them
    columns, returns no frame of length 0 but raises: the frame built from
    no dict has no column to sort by. *)
Lemma cat_var_empty_cols_raises :
  no_cols_heap !! 0 = Some (OTable scenario_table) ∧
  no_cols_heap !! 1 = Some (OList []) ∧
  all_present scenario_table [] ∧
  call_cat_var (AS := stable_argsort) no_cols_heap 0 1 =
    inl (KeyError "number_of_possible_values") ∧
  ¬ ∃ fr, call_cat_var (AS := stable_argsort) no_cols_heap 0 1 = inr fr ∧
          length fr = length (@nil string).
Proof.
  split_and!; [reflexivity|reflexivity|constructor|reflexivity|].
  intros (fr & Hfr & _). vm_compute in Hfr. discriminate.
Qed.

(** C1, amended: for every table [T] and every non-empty list [C] of names
    that are all columns of [T], [cat_var] returns a frame with exactly one
    row per name of [C]: as many rows as names, labelled [0 .. length C - 1],
    and the names of the rows are the names of [C], each as often as in [C]. *)
Theorem cat_var_one_row_per_name `{!ArgSort, !ArgSortOk}
    (h : heap) (df cols : loc) (T : table) (C : list string) :
  h !! df = Some (OTable T) → h !! cols = Some (OList C) →
  all_present T C → C ≠ [] →
  ∃ fr, call_cat_var h df cols = inr fr ∧
        length fr = length C ∧
        fr.*1 = seq 0 (length C) ∧
        categorical_variable <$> fr.*2 ≡ₚ C.
Proof.
  intros Hdf Hcols Hp Hne.
  rewrite (run_call_cat_var _ _ _ _ _ Hdf Hcols).
  destruct (summarize_present T C Hp Hne) as [fr Hfr].
  exists fr. split; [done|].
  apply summarize_inr in Hfr as (_ & _ & rows & Hr & H1 & H2).
  split_and!; [|done|].
  - by rewrite <- (length_fmap fst), H1, length_seq.
  - by rewrite H2, sorted_rows_perm, (summary_names _ _ _ Hr).
Qed.

(** The scenario of the specification. *)
Example scenario_run :
  call_cat_var (AS := stable_argsort) scenario_heap 0 1 =
  inr [(0, Row "odor" 3 [Str "n"; Str "f"; Str "y"]);
       (1, Row "bruises" 2 [Str "t"; Str "f"])].
Proof. vm_compute. reflexivity. Qed.

Lemma cat_var_one_row_per_name_witness :
  scenario_heap !! 0 = Some (OTable scenario_table) ∧
  scenario_heap !! 1 = Some (OList ["odor"; "bruises"]%string) ∧
  all_present scenario_table ["odor"; "bruises"]%string ∧
  ["odor"; "bruises"]%string ≠ [] ∧
  ∃ fr, call_cat_var (AS := stable_argsort) scenario_heap 0 1 = inr fr ∧
        length fr = 2 ∧
        fr.*1 = [0; 1] ∧
        categorical_variable <$> fr.*2 ≡ₚ ["odor"; "bruises"]%string.
Proof.
  split_and!; [reflexivity|reflexivity|apply all_present_scenario|done|].
  apply (@cat_var_one_row_per_name stable_argsort stable_argsort_ok
           scenario_heap 0 1 scenario_table ["odor"; "bruises"]%string);
    [reflexivity|reflexivity|apply all_present_scenario|done].
Defined.

(** C2: for every table [T], every list [C] of names that are all columns
    of [T] and every name [c] of [C], the frame that [cat_var] returns has a
    row for [c], and the [number_of_possible_values] of every row for [c] is
    the number of distinct values of column [c] of [T], counted by equality
    of the raw values, the missing marker being one of them. *)
Theorem cat_var_counts_distinct `{!ArgSort, !ArgSortOk}
    (h : heap) (df cols : loc) (T : table) (C : list string) (c : string) :
  h !! df = Some (OTable T) → h !! cols = Some (OList C) →
  all_present T C → c ∈ C →
  ∃ fr xs, call_cat_var h df cols = inr fr ∧ T !! c = Some xs ∧
    (∃ r, r ∈ fr.*2 ∧ categorical_variable r = c) ∧
    ∀ r, r ∈ fr.*2 → categorical_variable r = c →
         number_of_possible_values r = size (list_to_set xs : gset value).
Proof.
  intros Hdf Hcols Hp Hc.
  rewrite (run_call_cat_var _ _ _ _ _ Hdf Hcols).
  assert (Hne : C ≠ []) by (intros ->; by apply elem_of_nil in Hc).
  destruct (summarize_present T C Hp Hne) as [fr Hfr].
  destruct (summarize_inr _ _ _ Hfr) as (_ & _ & rows & Hr & _ & H2).
  destruct (proj1 (Forall_forall _ _) Hp c Hc) as [xs Hxs].
  exists fr, xs. rewrite H2. split_and!; [done..| |].
  - destruct (summary_elem_of_l _ _ _ _ Hr Hc) as (r & Hin & Hs).
    exists r. rewrite sorted_rows_perm. split; [done|].
    by apply summary_count in Hs as [? _].
  - intros r Hin Hname. rewrite sorted_rows_perm in Hin.
    destruct (summary_elem_of _ _ _ _ Hr Hin) as (c' & _ & Hs).
    apply summary_count in Hs as (Hn & _ & xs' & Hxs' & ->).
    congruence.
Qed.

Lemma cat_var_counts_distinct_witness :
  scenario_heap !! 0 = Some (OTable scenario_table) ∧
  scenario_heap !! 1 = Some (OList ["odor"; "bruises"]%string) ∧
  all_present scenario_table ["odor"; "bruises"]%string ∧
  "odor"%string ∈ ["odor"; "bruises"]%string ∧
  ∃ fr xs, call_cat_var (AS := stable_argsort) scenario_heap 0 1 = inr fr ∧
    scenario_table !! "odor"%string = Some xs ∧
    (∃ r, r ∈ fr.*2 ∧ categorical_variable r = "odor"%string) ∧
    ∀ r, r ∈ fr.*2 → categorical_variable r = "odor"%string →
         number_of_possible_values r = size (list_to_set xs : gset value).
Proof.
  split_and!; [reflexivity|reflexivity|apply all_present_scenario|by left|].
  apply (@cat_var_counts_distinct stable_argsort stable_argsort_ok
           scenario_heap 0 1 scenario_table ["odor"; "bruises"]%string);
    [reflexivity|reflexivity|apply all_present_scenario|by left].
Defined.

(** The outcome of a call on present names: a frame with property [P], or
    an exception because no name was given. *)
Lemma call_cat_var_cases `{!ArgSort, !ArgSortOk}
    (P : frame → Prop) (h : heap) (df cols : loc) (T : table) (C : list string) :
  h !! df = Some (OTable T) → h !! cols = Some (OList C) →
  all_present T C →
  (∀ fr rows, Forall2 (summary_of T) C rows →
              fr.*2 = sorted_rows rows → P fr) →
  match call_cat_var h df cols with
  | inr fr => P fr
  | inl _ => C = []
  end.
Proof.
  intros Hdf Hcols Hp HP.
  rewrite (run_call_cat_var _ _ _ _ _ Hdf Hcols).
  destruct (summarize T C) as [e|fr] eqn:Hs.
  - apply summarize_inl in Hs as [[-> _]|(c & _ & Hc & Hn)]; [done|].
    eapply Forall_forall in Hp as [xs Hxs]; [|done]. congruence.
  - apply summarize_inr in Hs as (_ & _ & rows & Hr & _ & H2). eauto.
Qed.

(** C3: for every table [T] and every list [C] of names that are all columns
    of [T], the rows that [cat_var] returns are in descending order of
    [number_of_possible_values]: of two adjacent rows the first has at least
    the count of the second.  (The call returns rows unless [C] is empty.) *)
Theorem cat_var_sorted_desc `{!ArgSort, !ArgSortOk}
    (h : heap) (df cols : loc) (T : table) (C : list string) :
  h !! df = Some (OTable T) → h !! cols = Some (OList C) →
  all_present T C →
  match call_cat_var h df cols with
  | inr fr =>
      ∀ i r1 r2, fr.*2 !! i = Some r1 → fr.*2 !! S i = Some r2 →
        number_of_possible_values r1 ≥ number_of_possible_values r2
  | inl _ => C = []
  end.
Proof.
  intros Hdf Hcols Hp. apply (call_cat_var_cases _ _ _ _ T C); try done.
  intros fr rows _ -> i r1 r2 H1 H2.
  pose proof (sorted_rows_sorted rows) as Hs.
  apply (Sorted_adjacent _ _ i (number_of_possible_values r1)
           (number_of_possible_values r2)) in Hs; [done|..];
    rewrite list_lookup_fmap; [by rewrite H1|by rewrite H2].
Qed.

Lemma cat_var_sorted_desc_witness :
  scenario_heap !! 0 = Some (OTable scenario_table) ∧
  scenario_heap !! 1 = Some (OList ["odor"; "bruises"]%string) ∧
  all_present scenario_table ["odor"; "bruises"]%string ∧
  match call_cat_var (AS := stable_argsort) scenario_heap 0 1 with
  | inr fr =>
      ∀ i r1 r2, fr.*2 !! i = Some r1 → fr.*2 !! S i = Some r2 →
        number_of_possible_values r1 ≥ number_of_possible_values r2
  | inl _ => ["odor"; "bruises"]%string = []
  end.
Proof.
  split_and!; [reflexivity|reflexivity|apply all_present_scenario|].
  apply (@cat_var_sorted_desc stable_argsort stable_argsort_ok
           scenario_heap 0 1 scenario_table ["odor"; "bruises"]%string);
    [reflexivity|reflexivity|apply all_present_scenario].
Defined.

(** The quicksort at work on twenty-four keys: the keys read through the
    result ascend, and the three positions of key 3 that are tied (1, 20,
    21) are not in their order. *)
Example npy_aquicksort_run :
  let ks := [5; 3; 9; 1; 7; 2; 8; 6; 4; 0; 15; 13; 19; 11; 17; 12; 18; 16;
             14; 10; 3; 3; 5; 5] in
  npy_aquicksort ks =
    [9; 3; 5; 1; 21; 20; 8; 0; 22; 23; 7; 4; 6; 2; 19; 13; 15; 11; 18; 10;
     17; 14; 16; 12] ∧
  (λ i, nth i ks 0) <$> npy_aquicksort ks =
    [0; 1; 2; 3; 3; 3; 4; 5; 5; 5; 6; 7; 8; 9; 10; 11; 12; 13; 14; 15; 16;
     17; 18; 19].
Proof. split; vm_compute; reflexivity. Qed.

Lemma all_present_wide : all_present wide_table wide_names.
Proof. repeat constructor; eexists; reflexivity. Qed.

(** Against C4 as stated: the order of rows of equal count is up to the
    sorting routine.  With a routine that honours the contract and puts equal keys in reverse order,
    the rows of two columns of equal count come out against the order of
    the columns in the list.  With numpy's quicksort, the rows of eighteen
    columns of equal count come out with the third to the seventeenth in
    reverse order. *)
Lemma cat_var_ties_reordered :
  (@ArgSortOk unstable_argsort ∧
   tie_heap !! 0 = Some (OTable tie_table) ∧
   tie_heap !! 1 = Some (OList ["a"; "b"]%string) ∧
   all_present tie_table ["a"; "b"]%string ∧
   call_cat_var (AS := unstable_argsort) tie_heap 0 1 =
     inr [(0, Row "b" 2 [Str "p"; Str "q"]);
          (1, Row "a" 2 [Str "x"; Str "y"])] ∧
   ¬ ∃ fr rows,
       call_cat_var (AS := unstable_argsort) tie_heap 0 1 = inr fr ∧
       Forall2 (summary_of tie_table) ["a"; "b"]%string rows ∧
       filter (λ r, number_of_possible_values r = 2) fr.*2 =
       filter (λ r, number_of_possible_values r = 2) rows) ∧
  (wide_heap !! 0 = Some (OTable wide_table) ∧
   wide_heap !! 1 = Some (OList wide_names) ∧
   all_present wide_table wide_names ∧
   ∃ fr,
     call_cat_var (AS := npy_aquicksort) wide_heap 0 1 = inr fr ∧
     number_of_possible_values <$> fr.*2 = replicate 18 2 ∧
     categorical_variable <$> fr.*2 =
       ["c01"; "c02"; "c17"; "c16"; "c15"; "c14"; "c13"; "c12"; "c11";
        "c10"; "c09"; "c08"; "c07"; "c06"; "c05"; "c04"; "c03"; "c18"]%string ∧
     categorical_variable <$> fr.*2 ≠ wide_names).
Proof.
  assert (Hrun : call_cat_var (AS := unstable_argsort) tie_heap 0 1 =
    inr [(0, Row "b" 2 [Str "p"; Str "q"]);
         (1, Row "a" 2 [Str "x"; Str "y"])]) by (vm_compute; reflexivity).
  split.
  - split_and!; [apply unstable_argsort_ok|reflexivity|reflexivity
                |apply all_present_tie|exact Hrun|].
    intros (fr & rows & Hfr & Hr & Heq).
    rewrite Hrun in Hfr. injection Hfr as <-.
    inv Hr as [|? ra ? ? (xa & Ha & ->) Hr'].
    inv Hr' as [|? rb ? ? (xb & Hb & ->) Hr'']. inv Hr''.
    vm_compute in Ha, Hb. injection Ha as <-. injection Hb as <-.
    vm_compute in Heq. discriminate.
  - split_and!; [reflexivity|reflexivity|apply all_present_wide|].
    eexists. split; [vm_compute; reflexivity|].
    split_and!; [vm_compute; reflexivity..|].
    vm_compute. discriminate.
Qed.

(** C4, amended: for every table [T] and every list [C] of names that are
    all columns of [T], the rows of any given count that [cat_var] returns
    are the rows of the columns of [C] with that count, in some order; they
    are in the columns' order in [C] whenever the sorting routine is stable.
    (The call returns rows unless [C] is empty.) *)
Theorem cat_var_ties `{!ArgSort, !ArgSortOk}
    (h : heap) (df cols : loc) (T : table) (C : list string) :
  h !! df = Some (OTable T) → h !! cols = Some (OList C) →
  all_present T C →
  match call_cat_var h df cols with
  | inr fr =>
      ∃ rows, Forall2 (summary_of T) C rows ∧
        ∀ k,
          filter (λ r, number_of_possible_values r = k) fr.*2 ≡ₚ
          filter (λ r, number_of_possible_values r = k) rows ∧
          (ArgSortStable →
           filter (λ r, number_of_possible_values r = k) fr.*2 =
           filter (λ r, number_of_possible_values r = k) rows)
  | inl _ => C = []
  end.
Proof.
  intros Hdf Hcols Hp. apply (call_cat_var_cases _ _ _ _ T C); try done.
  intros fr rows Hr ->. exists rows. split; [done|]. intros k. split.
  - by rewrite sorted_rows_perm.
  - intros Hst. apply sorted_rows_stable.
Qed.

Lemma cat_var_ties_witness :
  tie_heap !! 0 = Some (OTable tie_table) ∧
  tie_heap !! 1 = Some (OList ["a"; "b"]%string) ∧
  all_present tie_table ["a"; "b"]%string ∧
  @ArgSortStable stable_argsort ∧
  ∃ fr rows,
    call_cat_var (AS := stable_argsort) tie_heap 0 1 = inr fr ∧
    Forall2 (summary_of tie_table) ["a"; "b"]%string rows ∧
    ∀ k, filter (λ r, number_of_possible_values r = k) fr.*2 =
         filter (λ r, number_of_possible_values r = k) rows.
Proof.
  split_and!; [reflexivity|reflexivity|apply all_present_tie
              |apply stable_argsort_stable|].
  pose proof (@cat_var_ties stable_argsort stable_argsort_ok
                tie_heap 0 1 tie_table ["a"; "b"]%string
                eq_refl eq_refl all_present_tie) as Hties.
  destruct (call_cat_var (AS := stable_argsort) tie_heap 0 1) as [e|fr];
    [discriminate Hties|].
  destruct Hties as (rows & Hr & Hk).
  exists fr, rows. split_and!; [done..|].
  intros k. apply Hk, stable_argsort_stable.
Defined.

(** C9: in every row that [cat_var] returns, [number_of_possible_values]
    is the length of the row's [values].  (The call returns rows for names
    that are all columns, unless there is no name.) *)
Theorem cat_var_count_is_length_of_values `{!ArgSort, !ArgSortOk}
    (h : heap) (df cols : loc) (T : table) (C : list string) :
  h !! df = Some (OTable T) → h !! cols = Some (OList C) →
  all_present T C →
  match call_cat_var h df cols with
  | inr fr =>
      Forall (λ r, number_of_possible_values r = length (values r)) fr.*2
  | inl _ => C = []
  end.
Proof.
  intros Hdf Hcols Hp. apply (call_cat_var_cases _ _ _ _ T C); try done.
  intros fr rows Hr ->. rewrite sorted_rows_perm.
  apply Forall_forall. intros r Hin.
  destruct (summary_elem_of _ _ _ _ Hr Hin) as (c & _ & Hs).
  by apply summary_count in Hs as (_ & ? & _).
Qed.

Lemma cat_var_count_is_length_of_values_witness :
  scenario_heap !! 0 = Some (OTable scenario_table) ∧
  scenario_heap !! 1 = Some (OList ["odor"; "bruises"]%string) ∧
  all_present scenario_table ["odor"; "bruises"]%string ∧
  match call_cat_var (AS := stable_argsort) scenario_heap 0 1 with
  | inr fr =>
      Forall (λ r, number_of_possible_values r = length (values r)) fr.*2
  | inl _ => ["odor"; "bruises"]%string = []
  end.
Proof.
  split_and!; [reflexivity|reflexivity|apply all_present_scenario|].
  apply (@cat_var_count_is_length_of_values stable_argsort stable_argsort_ok
           scenario_heap 0 1 scenario_table ["odor"; "bruises"]%string);
    [reflexivity|reflexivity|apply all_present_scenario].
Defined.

Lemma summarize_stop `{!ArgSort} t cs rows c :
  collect t cs = (rows, Some c) → summarize t cs = inl (KeyError c).
Proof. unfold summarize. intros ->. by destruct rows. Qed.

(** C5: for every table [T] and every list [C] one of whose names is not a
    column of [T], [cat_var] raises [KeyError] for the first such name and
    returns nothing: no frame, with or without the other columns. *)
Theorem cat_var_missing_column `{!ArgSort}
    (h : heap) (df cols : loc) (T : table) (C : list string) :
  h !! df = Some (OTable T) → h !! cols = Some (OList C) →
  (∃ c, c ∈ C ∧ T !! c = None) →
  ∃ pre c post h',
    C = pre ++ c :: post ∧ all_present T pre ∧ T !! c = None ∧
    cat_var df cols h = (inl (KeyError c), h') ∧
    call_cat_var h df cols = inl (KeyError c).
Proof.
  intros Hdf Hcols (c0 & Hin & Hc0).
  destruct (collect_absent T C) as (rows & c & Hcol & _).
  { intros Hp. eapply Forall_forall in Hp as [xs Hxs]; [|done]. congruence. }
  destruct (collect_stop _ _ _ _ Hcol) as (Hn & pre & post & -> & Hp & _).
  exists pre, c, post. eexists. split_and!; [done..| |].
  - rewrite (run_cat_var _ _ _ _ _ Hdf Hcols).
    by rewrite (summarize_stop _ _ _ _ Hcol).
  - rewrite (run_call_cat_var _ _ _ _ _ Hdf Hcols).
    by apply summarize_stop in Hcol.
Qed.

Lemma cat_var_missing_column_witness :
  missing_heap !! 0 = Some (OTable scenario_table) ∧
  missing_heap !! 1 = Some (OList ["odor"; "habitat"; "bruises"]%string) ∧
  (∃ c, c ∈ ["odor"; "habitat"; "bruises"]%string ∧
        scenario_table !! c = None) ∧
  ∃ pre c post h',
    ["odor"; "habitat"; "bruises"]%string = pre ++ c :: post ∧
    all_present scenario_table pre ∧ scenario_table !! c = None ∧
    cat_var (AS := stable_argsort) 0 1 missing_heap = (inl (KeyError c), h') ∧
    call_cat_var (AS := stable_argsort) missing_heap 0 1 = inl (KeyError c).
Proof.
  assert (Hm : ∃ c, c ∈ ["odor"; "habitat"; "bruises"]%string ∧
                    scenario_table !! c = None).
  { exists "habitat"%string. split; [|reflexivity]. right. left. }
  split_and!; [reflexivity|reflexivity|exact Hm|].
  apply (@cat_var_missing_column stable_argsort
           missing_heap 0 1 scenario_table);
    [reflexivity|reflexivity|exact Hm].
Defined.

Example cat_var_missing_column_run :
  cat_var (AS := stable_argsort) 0 1 missing_heap =
  (inl (KeyError "habitat"),
   missing_heap ++ [ODicts [Row "odor" 3 [Str "n"; Str "f"; Str "y"]]]).
Proof. vm_compute. reflexivity. Qed.

(** C6: a call of [cat_var] on a table [T] and a list [C] changes no object
    that was in the store: the store after the call is the store before it
    followed by new objects, [T] and [C] are still what the two references
    denote, and a returned frame is one of the new objects. *)
Theorem cat_var_leaves_store `{!ArgSort}
    (h : heap) (df cols : loc) (T : table) (C : list string) :
  h !! df = Some (OTable T) → h !! cols = Some (OList C) →
  h `prefix_of` (cat_var df cols h).2 ∧
  (cat_var df cols h).2 !! df = Some (OTable T) ∧
  (cat_var df cols h).2 !! cols = Some (OList C) ∧
  (∀ l o, h !! l = Some o → (cat_var df cols h).2 !! l = Some o) ∧
  (∀ l, (cat_var df cols h).1 = inr l →
        h !! l = None ∧ ∃ f, (cat_var df cols h).2 !! l = Some (OFrame f)).
Proof.
  intros Hdf Hcols. rewrite (run_cat_var _ _ _ _ _ Hdf Hcols). simpl.
  assert (Hold : ∀ l o, h !! l = Some o →
                        (h ++ allocated T C) !! l = Some o).
  { intros l o Hl. by apply lookup_app_l_Some. }
  split_and!; [by apply prefix_app_r|auto..|].
  intros l Hl.
  pose proof (run_call_cat_var _ _ _ _ _ Hdf Hcols) as Hcall.
  unfold call_cat_var in Hcall.
  rewrite (run_cat_var _ _ _ _ _ Hdf Hcols) in Hcall.
  destruct (summarize T C) as [e|fr]; [done|]. injection Hl as <-.
  split; [apply lookup_ge_None; lia|].
  destruct ((h ++ allocated T C) !! (length h + 3)) as [[]|]; try done. eauto.
Qed.

Lemma cat_var_leaves_store_witness :
  scenario_heap !! 0 = Some (OTable scenario_table) ∧
  scenario_heap !! 1 = Some (OList ["odor"; "bruises"]%string) ∧
  let h' := (cat_var (AS := stable_argsort) 0 1 scenario_heap).2 in
  let r := (cat_var (AS := stable_argsort) 0 1 scenario_heap).1 in
  scenario_heap `prefix_of` h' ∧
  h' !! 0 = Some (OTable scenario_table) ∧
  h' !! 1 = Some (OList ["odor"; "bruises"]%string) ∧
  (∀ l o, scenario_heap !! l = Some o → h' !! l = Some o) ∧
  (∀ l, r = inr l →
        scenario_heap !! l = None ∧ ∃ f, h' !! l = Some (OFrame f)).
Proof.
  split_and!; [reflexivity|reflexivity|].
  apply (@cat_var_leaves_store stable_argsort scenario_heap 0 1
           scenario_table ["odor"; "bruises"]%string); reflexivity.
Defined.

(** The outcome of a call depends on the table and the names only, not on
    the store they are in nor on where they are in it. *)
Lemma call_cat_var_ext `{!ArgSort} h1 h2 df1 df2 cols1 cols2 T C :
  h1 !! df1 = Some (OTable T) → h1 !! cols1 = Some (OList C) →
  h2 !! df2 = Some (OTable T) → h2 !! cols2 = Some (OList C) →
  call_cat_var h1 df1 cols1 = call_cat_var h2 df2 cols2.
Proof.
  intros H1 H1' H2 H2'.
  by rewrite (run_call_cat_var _ _ _ _ _ H1 H1'),
             (run_call_cat_var _ _ _ _ _ H2 H2').
Qed.

(** C7: a second call of [cat_var] with the same arguments, in the store
    that the first call left, has the outcome of the first; and so has a
    call in any store on references that denote the same table and names. *)
Theorem cat_var_deterministic `{!ArgSort}
    (h : heap) (df cols : loc) (T : table) (C : list string) :
  h !! df = Some (OTable T) → h !! cols = Some (OList C) →
  call_cat_var (cat_var df cols h).2 df cols = call_cat_var h df cols ∧
  ∀ h2 df2 cols2,
    h2 !! df2 = Some (OTable T) → h2 !! cols2 = Some (OList C) →
    call_cat_var h2 df2 cols2 = call_cat_var h df cols.
Proof.
  intros Hdf Hcols. split.
  - apply (call_cat_var_ext _ _ _ _ _ _ T C); try done;
      rewrite (run_cat_var _ _ _ _ _ Hdf Hcols); simpl;
      by apply lookup_app_l_Some.
  - intros h2 df2 cols2 H2 H2'. by apply (call_cat_var_ext _ _ _ _ _ _ T C).
Qed.

Lemma cat_var_deterministic_witness :
  scenario_heap !! 0 = Some (OTable scenario_table) ∧
  scenario_heap !! 1 = Some (OList ["odor"; "bruises"]%string) ∧
  call_cat_var (AS := stable_argsort)
    (cat_var (AS := stable_argsort) 0 1 scenario_heap).2 0 1 =
  call_cat_var (AS := stable_argsort) scenario_heap 0 1 ∧
  ∀ h2 df2 cols2,
    h2 !! df2 = Some (OTable scenario_table) →
    h2 !! cols2 = Some (OList ["odor"; "bruises"]%string) →
    call_cat_var (AS := stable_argsort) h2 df2 cols2 =
    call_cat_var (AS := stable_argsort) scenario_heap 0 1.
Proof.
  split; [reflexivity|split; [reflexivity|]].
  apply (@cat_var_deterministic stable_argsort scenario_heap 0 1
           scenario_table ["odor"; "bruises"]%string); reflexivity.
Defined.

(* ================================================================== *)
(** * Properties of [ordinal_encoding] *)
(* ================================================================== *)

(** ** Characters and code points *)

Ltac divmod_lia := zify; Z.to_euclidean_division_equations; lia.

Ltac tests_true :=
  repeat match goal with
  | |- context [(?a <=? ?b)%N] =>
      rewrite (proj2 (N.leb_le a b)) by divmod_lia
  | |- context [(?a <? ?b)%N] =>
      rewrite (proj2 (N.ltb_lt a b)) by divmod_lia
  end.

Ltac tests_decided :=
  repeat match goal with
  | |- context [(?a <? ?b)%N] =>
      first [ rewrite (proj2 (N.ltb_lt a b)) by divmod_lia
            | rewrite (proj2 (N.ltb_ge a b)) by divmod_lia ]
  end.

Ltac split_tests H :=
  repeat match type of H with
  | context [if ?b then _ else _] =>
      let T := fresh "T" in destruct b eqn:T; [|discriminate H]
  end;
  repeat match goal with
  | T : _ && _ = true |- _ => apply andb_true_iff in T as [? ?]
  | T : (_ <=? _)%N = true |- _ => apply N.leb_le in T
  | T : (_ <? _)%N = true |- _ => apply N.ltb_lt in T
  end.

Ltac bytes_eq :=
  repeat match goal with
  | |- String _ _ = String _ _ => f_equal
  | |- ascii_of_N _ = ascii_of_N _ => f_equal
  end; divmod_lia.

Lemma byte_of_ascii c :
  ∃ b, (b < 256)%N ∧ N_of_ascii c = b ∧ c = ascii_of_N b.
Proof.
  exists (N_of_ascii c). split; [apply N_ascii_bounded|].
  by rewrite ascii_N_embedding.
Qed.

Ltac as_byte c :=
  let b := fresh "b" in
  destruct (byte_of_ascii c) as (b & ? & ? & ->).

(** Decoding the string of a code point gives the code point back. *)
Lemma decode_chr n : (n ≤ max_code_point)%N → decode_char (chr n) = Some n.
Proof.
  unfold max_code_point, chr. intros Hn.
  destruct (N.ltb_spec n 128); [|destruct (N.ltb_spec n 2048);
    [|destruct (N.ltb_spec n 65536)]];
    unfold decode_char, continuation, max_code_point;
    rewrite !N_ascii_embedding by divmod_lia;
    cbv zeta; tests_true; cbn [andb]; tests_true; cbn [andb];
    f_equal; divmod_lia.
Qed.

(** A string that decodes is the string of its code point, and no other. *)
Lemma chr_decode s n :
  decode_char s = Some n → (n ≤ max_code_point)%N ∧ s = chr n.
Proof.
  intros H.
  destruct s as [|c0 [|c1 [|c2 [|c3 [|c4 s]]]]]; try done;
    unfold decode_char, continuation in H; cbv zeta in H.
  - as_byte c0. rewrite N_ascii_embedding in H by done.
    split_tests H; injection H as <-; unfold max_code_point in *.
    split; [lia|]. unfold chr. by tests_decided.
  - as_byte c0. as_byte c1. rewrite !N_ascii_embedding in H by done.
    split_tests H; injection H as <-; unfold max_code_point in *.
    split; [lia|]. unfold chr. tests_decided. bytes_eq.
  - as_byte c0. as_byte c1. as_byte c2.
    rewrite !N_ascii_embedding in H by done.
    split_tests H; injection H as <-; unfold max_code_point in *.
    split; [lia|]. unfold chr. tests_decided. bytes_eq.
  - as_byte c0. as_byte c1. as_byte c2. as_byte c3.
    rewrite !N_ascii_embedding in H by done.
    split_tests H; injection H as <-; unfold max_code_point in *.
    split; [lia|]. unfold chr. tests_decided. bytes_eq.
Qed.

Lemma chr_inj n m :
  (n ≤ max_code_point)%N → (m ≤ max_code_point)%N → chr n = chr m → n = m.
Proof.
  intros Hn Hm H. apply decode_chr in Hn, Hm. rewrite H in Hn. congruence.
Qed.

Lemma ord_chr n : (n ≤ max_code_point)%N → ord (chr n) = Some (Z.of_N n).
Proof. intros Hn. unfold ord. by rewrite decode_chr. Qed.

Lemma ord_Some s z :
  ord s = Some z ↔ ∃ n, (n ≤ max_code_point)%N ∧ s = chr n ∧ z = Z.of_N n.
Proof.
  unfold ord. split.
  - destruct (decode_char s) as [n|] eqn:Hs; [|done]. intros [= <-].
    apply chr_decode in Hs as [? ?]. eauto.
  - intros (n & Hn & -> & ->). by rewrite decode_chr.
Qed.

Lemma ord_None s : ord s = None ↔ ¬ one_char (Str s).
Proof.
  split.
  - intros Hs (n & Hn & [= ->]). by rewrite ord_chr in Hs.
  - intros Hs. destruct (ord s) as [z|] eqn:Hz; [|done].
    destruct Hs. apply ord_Some in Hz as (n & ? & -> & _). by exists n.
Qed.

Lemma one_char_ord s z : ord s = Some z → one_char (Str s).
Proof. intros (n & ? & -> & _)%ord_Some. by exists n. Qed.

(** Cells given as literals. *)
Ltac one_chars :=
  repeat first
    [ apply Forall_nil_2
    | apply Forall_cons_2; [eapply one_char_ord; reflexivity|] ].

Example one_char_beyond_latin :
  Forall one_char [Str "p"; Str "?"; Str "é"; Str "€"; Str "𝄞"] ∧
  ord "é" = Some 233%Z ∧ ord "€" = Some 8364%Z ∧ ord "𝄞" = Some 119070%Z ∧
  ¬ one_char (Str "") ∧ ¬ one_char (Str "ab") ∧ ¬ one_char (Str "é€").
Proof.
  split; [one_chars|]. split_and!; try reflexivity; by apply ord_None.
Qed.

Lemma chr_question n :
  (n ≤ max_code_point)%N → chr n = "?"%string ↔ n = 63%N.
Proof.
  intros Hn. split; [|by intros ->].
  intros H. by apply (chr_inj n 63).
Qed.

(** Two characters in a row are no character. *)
Lemma chr_app_not_chr n m k :
  (n ≤ max_code_point)%N → (m ≤ max_code_point)%N → (k ≤ max_code_point)%N →
  chr n +:+ chr m ≠ chr k.
Proof.
  unfold max_code_point. intros Hn Hm Hk H.
  apply (f_equal decode_char) in H. rewrite (decode_chr k) in H by done.
  revert H. unfold chr.
  destruct (N.ltb_spec n 128); [|destruct (N.ltb_spec n 2048);
    [|destruct (N.ltb_spec n 65536)]];
    (destruct (N.ltb_spec m 128); [|destruct (N.ltb_spec m 2048);
      [|destruct (N.ltb_spec m 65536)]]);
    cbv beta iota delta [String.append]; unfold decode_char, continuation;
    cbv beta iota zeta; try (rewrite !N_ascii_embedding by divmod_lia);
    intros Hd; split_tests Hd; try done; divmod_lia.
Qed.

(** ** The function *)

Lemma ordinal_encoding_char s z :
  ord s = Some z → s ≠ "?"%string →
  ordinal_encoding (Str s) = inr (z - 96)%Z.
Proof.
  intros Hz Hs. unfold ordinal_encoding.
  rewrite decide_False by congruence. by rewrite Hz.
Qed.

Lemma ordinal_encoding_chr n :
  (n ≤ max_code_point)%N →
  ordinal_encoding (Str (chr n)) =
    inr (if decide (n = 63%N) then 27 else Z.of_N n - 96)%Z.
Proof.
  intros Hn. case_decide as H63; [by subst|].
  apply ordinal_encoding_char; [by apply ord_chr|].
  by rewrite chr_question.
Qed.

(** C8: [ordinal_encoding] sends the [i]-th lower-case letter, counted from
    1, to [i], so ['a'] to 1 and ['z'] to 26, and sends ['?'] to 27. *)
Theorem ordinal_encoding_letters :
  (∀ (i : nat) (c : ascii),
     alphabet !! i = Some c →
     ordinal_encoding (Str (String c EmptyString)) = inr (Z.of_nat i + 1)%Z) ∧
  length alphabet = 26 ∧
  ordinal_encoding (Str "a") = inr 1%Z ∧
  ordinal_encoding (Str "z") = inr 26%Z ∧
  ordinal_encoding (Str "?") = inr 27%Z.
Proof.
  split_and!; try reflexivity.
  intros i c Hi.
  do 26 (destruct i as [|i]; [injection Hi as <-; reflexivity|]).
  done.
Qed.

Lemma ordinal_encoding_letters_witness :
  alphabet !! 12 = Some "m"%char ∧
  ordinal_encoding (Str "m") = inr 13%Z.
Proof.
  split; [reflexivity|].
  apply (proj1 ordinal_encoding_letters 12 "m"%char). reflexivity.
Defined.

(** C10: [ordinal_encoding] returns on every string of one character,
    whatever its code point up to 0x10FFFF: for every character other than
    ['?'] it returns [ord(x) - 96], which for the upper-case letters lies
    between -31 and -6, for the backquote is 0 and beyond the Latin letters
    exceeds 27 (8268 for the euro sign); and it returns 27 for the character
    ['{'] as it does for ['?']. *)
Theorem ordinal_encoding_total_sentinel_shared :
  (∀ n : N, (n ≤ max_code_point)%N → ord (chr n) = Some (Z.of_N n)) ∧
  (∀ x, one_char x → ∃ z, ordinal_encoding x = inr z) ∧
  (∀ n : N, (n ≤ max_code_point)%N → chr n ≠ "?"%string →
     ordinal_encoding (Str (chr n)) = inr (Z.of_N n - 96)%Z) ∧
  (∀ s z, ord s = Some z → s ≠ "?"%string →
     ordinal_encoding (Str s) = inr (z - 96)%Z) ∧
  (chr 65 = "A"%string ∧ chr 90 = "Z"%string ∧
   ∀ n : N, (65 ≤ n ≤ 90)%N →
     ∃ z, ordinal_encoding (Str (chr n)) = inr z ∧ (-31 ≤ z ≤ -6)%Z) ∧
  ordinal_encoding (Str "A") = inr (-31)%Z ∧
  ordinal_encoding (Str "`") = inr 0%Z ∧
  ordinal_encoding (Str "€") = inr 8268%Z ∧
  ordinal_encoding (Str (chr max_code_point)) = inr 1114015%Z ∧
  ordinal_encoding (Str "{") = inr 27%Z ∧
  ordinal_encoding (Str "?") = inr 27%Z ∧
  Str "{" ≠ Str "?".
Proof.
  split_and!; try reflexivity; try done.
  - apply ord_chr.
  - intros x (n & Hn & ->). rewrite ordinal_encoding_chr by done. eauto.
  - intros n Hn Hq. rewrite ordinal_encoding_chr by done.
    rewrite decide_False; [done|]. by rewrite <- chr_question.
  - apply ordinal_encoding_char.
  - intros n Hn. assert (n ≤ max_code_point)%N by (unfold max_code_point; lia).
    rewrite ordinal_encoding_chr by done.
    rewrite decide_False by lia. eexists. split; [done|lia].
Qed.

Lemma ordinal_encoding_total_sentinel_shared_witness :
  ((81 ≤ max_code_point)%N ∧ chr 81 = "Q"%string ∧ chr 81 ≠ "?"%string ∧
   (65 ≤ 81 ≤ 90)%N ∧
   ordinal_encoding (Str "Q") = inr (-15)%Z ∧
   ∃ z, ordinal_encoding (Str "Q") = inr z ∧ (-31 ≤ z ≤ -6)%Z) ∧
  ((8364 ≤ max_code_point)%N ∧ chr 8364 = "€"%string ∧
   chr 8364 ≠ "?"%string ∧ ord "€" = Some 8364%Z ∧
   ordinal_encoding (Str "€") = inr 8268%Z).
Proof.
  assert (H81 : (81 ≤ max_code_point)%N) by (by vm_compute).
  assert (H8364 : (8364 ≤ max_code_point)%N) by (by vm_compute).
  assert (Hr : (65 ≤ 81 ≤ 90)%N) by lia.
  assert (Hq : chr 81 ≠ "?"%string) by done.
  assert (He : chr 8364 ≠ "?"%string) by done.
  split.
  - split; [exact H81|]. split; [reflexivity|]. split; [exact Hq|].
    split; [exact Hr|]. split.
    + exact (proj1 (proj2 (proj2 ordinal_encoding_total_sentinel_shared))
               81%N H81 Hq).
    + exact (proj2 (proj2 (proj1 (proj2 (proj2 (proj2 (proj2
               ordinal_encoding_total_sentinel_shared)))))) 81%N Hr).
  - split; [exact H8364|]. split; [reflexivity|]. split; [exact He|]. split.
    + exact (proj1 ordinal_encoding_total_sentinel_shared 8364%N H8364).
    + exact (proj1 (proj2 (proj2 ordinal_encoding_total_sentinel_shared))
               8364%N H8364 He).
Defined.

(* ================================================================== *)
(** * More on [cat_var]: when it returns, and what the rows hold *)
(* ================================================================== *)

Lemma summarize_returns `{!ArgSort} t cs :
  (∃ fr, summarize t cs = inr fr) ↔ cs ≠ [] ∧ all_present t cs.
Proof.
  unfold summarize. split.
  - intros [fr Hfr].
    destruct (collect t cs) as [rows [c|]] eqn:Hc; [by destruct rows|].
    apply collect_rows in Hc as [Hp Hr].
    split; [|done]. intros ->. by inv Hr.
  - intros [Hne (rows & -> & Hr)%collect_present].
    destruct Hr; [done|]. eauto.
Qed.

(** X1: a call of [cat_var] on a table and a list of names returns a frame
    exactly when the list is not empty and all its names are columns of
    the table; on the empty list it raises [KeyError] for the label
    [number_of_possible_values], whatever the table. *)
Theorem cat_var_returns_iff `{!ArgSort}
    (h : heap) (df cols : loc) (T : table) (C : list string) :
  h !! df = Some (OTable T) → h !! cols = Some (OList C) →
  ((∃ fr, call_cat_var h df cols = inr fr) ↔ C ≠ [] ∧ all_present T C) ∧
  (C = [] →
   call_cat_var h df cols = inl (KeyError "number_of_possible_values")).
Proof.
  intros Hdf Hcols. rewrite (run_call_cat_var _ _ _ _ _ Hdf Hcols).
  split; [apply summarize_returns|]. by intros ->.
Qed.

Lemma cat_var_returns_iff_witness :
  no_cols_heap !! 0 = Some (OTable scenario_table) ∧
  no_cols_heap !! 1 = Some (OList []) ∧
  ((∃ fr, call_cat_var (AS := npy_aquicksort) no_cols_heap 0 1 = inr fr) ↔
   @nil string ≠ [] ∧ all_present scenario_table []) ∧
  (@nil string = [] →
   call_cat_var (AS := npy_aquicksort) no_cols_heap 0 1 =
     inl (KeyError "number_of_possible_values")).
Proof.
  split; [reflexivity|]. split; [reflexivity|].
  apply (@cat_var_returns_iff npy_aquicksort no_cols_heap 0 1
           scenario_table []); reflexivity.
Defined.

(** The [i]-th value that [unique] keeps is met for the first time at some
    position [k] of the column, and the values met before [k] are the
    values kept before it. *)
Lemma unique_from_first seen xs i x :
  unique_from seen xs !! i = Some x →
  ∃ k, xs !! k = Some x ∧ (x ∉ seen) ∧ (x ∉ take k xs) ∧
       ∀ y, (y ∈ take k xs ∨ y ∈ seen) ↔
            (y ∈ take i (unique_from seen xs) ∨ y ∈ seen).
Proof.
  revert seen i. induction xs as [|z xs IH]; intros seen i; simpl; [done|].
  case_decide as Hz.
  - intros (k & Hk & Hs & Hx & Hy)%IH. exists (S k). simpl.
    split_and!; [done..| |].
    + rewrite not_elem_of_cons. split; [|done]. by intros ->.
    + intros y. rewrite elem_of_cons, <- Hy. set_solver.
  - destruct i as [|i]; simpl.
    + intros [= ->]. exists 0. simpl. split_and!; [done..| |done].
      apply not_elem_of_nil.
    + intros (k & Hk & Hs & Hx & Hy)%IH. exists (S k). simpl.
      apply not_elem_of_cons in Hs as [Hxz Hs].
      split_and!; [done..| |].
      * by rewrite not_elem_of_cons.
      * intros y. specialize (Hy y). rewrite !elem_of_cons in *. tauto.
Qed.

(** X2: in every row that [cat_var] returns, [values] lists the values of
    the row's column without repetition and in the order in which the
    column shows them first: every value of the column is listed, and the
    [i]-th listed value first occurs in the column at a position before
    which exactly the [i] values listed before it occur. *)
Theorem cat_var_values_first_appearance `{!ArgSort, !ArgSortOk}
    (h : heap) (df cols : loc) (T : table) (C : list string)
    (fr : frame) (r : row) :
  h !! df = Some (OTable T) → h !! cols = Some (OList C) →
  call_cat_var h df cols = inr fr → r ∈ fr.*2 →
  ∃ xs, T !! categorical_variable r = Some xs ∧
    NoDup (values r) ∧
    (∀ v, v ∈ values r ↔ v ∈ xs) ∧
    ∀ i x, values r !! i = Some x →
      ∃ k, xs !! k = Some x ∧ (x ∉ take k xs) ∧
           ∀ y, y ∈ take k xs ↔ y ∈ (take i (values r)).
Proof.
  intros Hdf Hcols. rewrite (run_call_cat_var _ _ _ _ _ Hdf Hcols).
  intros (_ & _ & rows & Hr & _ & H2)%summarize_inr Hin.
  rewrite H2, sorted_rows_perm in Hin.
  destruct (summary_elem_of _ _ _ _ Hr Hin) as (c & _ & xs & Hxs & ->).
  simpl. exists xs. split_and!; [done|apply NoDup_unique_from| |].
  - intros v. apply elem_of_unique.
  - intros i x (k & Hk & _ & Hx & Hy)%unique_from_first.
    exists k. split_and!; [done..|]. intros y. specialize (Hy y).
    fold (unique xs) in Hy. set_solver.
Qed.

Lemma cat_var_values_first_appearance_witness :
  scenario_heap !! 0 = Some (OTable scenario_table) ∧
  scenario_heap !! 1 = Some (OList ["odor"; "bruises"]%string) ∧
  let fr := [(0, Row "odor" 3 [Str "n"; Str "f"; Str "y"]);
             (1, Row "bruises" 2 [Str "t"; Str "f"])] in
  let r := Row "odor" 3 [Str "n"; Str "f"; Str "y"] in
  call_cat_var (AS := stable_argsort) scenario_heap 0 1 = inr fr ∧
  r ∈ fr.*2 ∧
  ∃ xs, scenario_table !! categorical_variable r = Some xs ∧
    NoDup (values r) ∧
    (∀ v, v ∈ values r ↔ v ∈ xs) ∧
    ∀ i x, values r !! i = Some x →
      ∃ k, xs !! k = Some x ∧ (x ∉ take k xs) ∧
           ∀ y, y ∈ take k xs ↔ y ∈ (take i (values r)).
Proof.
  split; [reflexivity|]. split; [reflexivity|]. intros fr r.
  assert (Hrun : call_cat_var (AS := stable_argsort) scenario_heap 0 1 =
                 inr fr) by (vm_compute; reflexivity).
  assert (Hin : r ∈ fr.*2) by (simpl; left).
  split; [exact Hrun|]. split; [exact Hin|].
  exact (@cat_var_values_first_appearance stable_argsort stable_argsort_ok
           scenario_heap 0 1 scenario_table ["odor"; "bruises"]%string
           fr r eq_refl eq_refl Hrun Hin).
Defined.

Lemma length_unique_from_le seen xs :
  length (unique_from seen xs) ≤ length xs.
Proof.
  revert seen. induction xs as [|x xs IH]; intros seen; simpl; [done|].
  case_decide; simpl; [specialize (IH seen)|specialize (IH (x :: seen))]; lia.
Qed.

Lemma NoDup_all_eq {A} (x : A) (l : list A) :
  NoDup l → l ≠ [] → (∀ y, y ∈ l → y = x) → l = [x].
Proof.
  intros Hnd Hne Hall. destruct l as [|a [|b l]]; [done| |].
  - f_equal. apply Hall. by left.
  - assert (a = x) as -> by (apply Hall; by left).
    assert (b = x) as -> by (apply Hall; right; by left).
    apply NoDup_cons in Hnd as [Hn _]. destruct Hn. by left.
Qed.

Lemma unique_one xs :
  length (unique xs) = 1 ↔ ∃ x, xs ≠ [] ∧ Forall (eq x) xs.
Proof.
  split.
  - intros Hlen. destruct (unique xs) as [|x [|??]] eqn:Hu; try done.
    exists x. split.
    + intros ->. done.
    + apply Forall_forall. intros y Hy.
      apply (proj2 (elem_of_unique _ _)) in Hy. rewrite Hu in Hy. by apply list_elem_of_singleton in Hy.
  - intros (x & Hne & Hall). rewrite (NoDup_all_eq x (unique xs)); [done|..].
    + apply NoDup_unique_from.
    + destruct xs as [|y xs]; [done|]. intros Hu.
      assert (y ∈ unique (y :: xs)) as Hy by (apply elem_of_unique; by left).
      rewrite Hu in Hy. by apply elem_of_nil in Hy.
    + intros y Hy. apply (proj1 (elem_of_unique _ _)) in Hy.
      rewrite Forall_forall in Hall. symmetry. by apply Hall.
Qed.

Lemma unique_nil xs : length (unique xs) = 0 ↔ xs = [].
Proof.
  split; [|by intros ->]. destruct xs as [|x xs]; [done|]. simpl. done.
Qed.

(** X3: the count of a returned row is at most the number of cells of its
    column; it is 0 exactly for a column without cells and 1 exactly for a
    column with cells that all hold the same value. *)
Theorem cat_var_count_edges `{!ArgSort, !ArgSortOk}
    (h : heap) (df cols : loc) (T : table) (C : list string)
    (fr : frame) (r : row) :
  h !! df = Some (OTable T) → h !! cols = Some (OList C) →
  call_cat_var h df cols = inr fr → r ∈ fr.*2 →
  ∃ xs, T !! categorical_variable r = Some xs ∧
    number_of_possible_values r ≤ length xs ∧
    (number_of_possible_values r = 0 ↔ xs = []) ∧
    (number_of_possible_values r = 1 ↔ ∃ x, xs ≠ [] ∧ Forall (eq x) xs).
Proof.
  intros Hdf Hcols. rewrite (run_call_cat_var _ _ _ _ _ Hdf Hcols).
  intros (_ & _ & rows & Hr & _ & H2)%summarize_inr Hin.
  rewrite H2, sorted_rows_perm in Hin.
  destruct (summary_elem_of _ _ _ _ Hr Hin) as (c & _ & xs & Hxs & ->).
  simpl. exists xs.
  split_and!; [done|apply length_unique_from_le|apply unique_nil
              |apply unique_one].
Qed.

Lemma cat_var_count_edges_witness :
  scenario_heap !! 0 = Some (OTable scenario_table) ∧
  scenario_heap !! 1 = Some (OList ["odor"; "bruises"]%string) ∧
  let fr := [(0, Row "odor" 3 [Str "n"; Str "f"; Str "y"]);
             (1, Row "bruises" 2 [Str "t"; Str "f"])] in
  let r := Row "bruises" 2 [Str "t"; Str "f"] in
  call_cat_var (AS := stable_argsort) scenario_heap 0 1 = inr fr ∧
  r ∈ fr.*2 ∧
  ∃ xs, scenario_table !! categorical_variable r = Some xs ∧
    number_of_possible_values r ≤ length xs ∧
    (number_of_possible_values r = 0 ↔ xs = []) ∧
    (number_of_possible_values r = 1 ↔ ∃ x, xs ≠ [] ∧ Forall (eq x) xs).
Proof.
  split; [reflexivity|]. split; [reflexivity|]. intros fr r.
  assert (Hrun : call_cat_var (AS := stable_argsort) scenario_heap 0 1 =
                 inr fr) by (vm_compute; reflexivity).
  assert (Hin : r ∈ fr.*2) by (simpl; right; left).
  split; [exact Hrun|]. split; [exact Hin|].
  exact (@cat_var_count_edges stable_argsort stable_argsort_ok
           scenario_heap 0 1 scenario_table ["odor"; "bruises"]%string
           fr r eq_refl eq_refl Hrun Hin).
Defined.

Lemma StronglySorted_lookup {A} (R : relation A) l i j x y :
  StronglySorted R l → i < j → l !! i = Some x → l !! j = Some y → R x y.
Proof.
  intros Hl. revert i j. induction Hl as [|z l Hl IH Hz]; intros i j; [done|].
  destruct i as [|i], j as [|j]; simpl; try lia.
  - intros _ [= ->] Hy. eapply Forall_forall in Hz; [done|].
    by eapply list_elem_of_lookup_2.
  - intros Hij. apply IH. lia.
Qed.

(** X4: the rows of a returned frame descend in count throughout, not only
    from one row to the next, and the first row is a column with the most
    distinct values among the requested ones. *)
Theorem cat_var_first_row_max `{!ArgSort, !ArgSortOk}
    (h : heap) (df cols : loc) (T : table) (C : list string) (fr : frame) :
  h !! df = Some (OTable T) → h !! cols = Some (OList C) →
  call_cat_var h df cols = inr fr →
  (∀ i j r1 r2, i < j → fr.*2 !! i = Some r1 → fr.*2 !! j = Some r2 →
     number_of_possible_values r2 ≤ number_of_possible_values r1) ∧
  ∃ r0, fr.*2 !! 0 = Some r0 ∧
    ∀ c xs, c ∈ C → T !! c = Some xs →
      size (list_to_set xs : gset value) ≤ number_of_possible_values r0.
Proof.
  intros Hdf Hcols. rewrite (run_call_cat_var _ _ _ _ _ Hdf Hcols).
  intros (Hne & _ & rows & Hr & _ & H2)%summarize_inr.
  assert (Hall : ∀ i j r1 r2, i < j →
    fr.*2 !! i = Some r1 → fr.*2 !! j = Some r2 →
    number_of_possible_values r2 ≤ number_of_possible_values r1).
  { intros i j r1 r2 Hij H1 H2'. rewrite H2 in H1, H2'.
    pose proof (sorted_rows_sorted rows) as Hs.
    apply (Sorted_StronglySorted _) in Hs.
    apply (StronglySorted_lookup _ _ i j (number_of_possible_values r1)
             (number_of_possible_values r2)) in Hs; [done|done|..];
      rewrite list_lookup_fmap; [by rewrite H1|by rewrite H2']. }
  split; [done|].
  destruct (fr.*2) as [|r0 rest] eqn:Hfr.
  { assert (rows = []) as ->.
    { apply Permutation_nil_r. by rewrite <- (sorted_rows_perm rows), <- H2. }
    by inv Hr. }
  exists r0. split; [done|]. intros c xs Hc Hxs.
  destruct (summary_elem_of_l _ _ _ _ Hr Hc) as (r & Hin & Hs).
  apply summary_count in Hs as (_ & _ & xs' & Hxs' & Hcount).
  assert (xs' = xs) as -> by congruence. rewrite <- Hcount.
  rewrite <- sorted_rows_perm, <- H2 in Hin.
  apply list_elem_of_lookup in Hin as [j Hj]. destruct j as [|j].
  - injection Hj as ->. done.
  - apply (Hall 0 (S j) r0 r); [lia|done|done].
Qed.

Lemma cat_var_first_row_max_witness :
  scenario_heap !! 0 = Some (OTable scenario_table) ∧
  scenario_heap !! 1 = Some (OList ["odor"; "bruises"]%string) ∧
  let fr := [(0, Row "odor" 3 [Str "n"; Str "f"; Str "y"]);
             (1, Row "bruises" 2 [Str "t"; Str "f"])] in
  call_cat_var (AS := stable_argsort) scenario_heap 0 1 = inr fr ∧
  (∀ i j r1 r2, i < j → fr.*2 !! i = Some r1 → fr.*2 !! j = Some r2 →
     number_of_possible_values r2 ≤ number_of_possible_values r1) ∧
  ∃ r0, fr.*2 !! 0 = Some r0 ∧
    ∀ c xs, c ∈ ["odor"; "bruises"]%string → scenario_table !! c = Some xs →
      size (list_to_set xs : gset value) ≤ number_of_possible_values r0.
Proof.
  split; [reflexivity|]. split; [reflexivity|]. intros fr.
  assert (Hrun : call_cat_var (AS := stable_argsort) scenario_heap 0 1 =
                 inr fr) by (vm_compute; reflexivity).
  split; [exact Hrun|].
  exact (@cat_var_first_row_max stable_argsort stable_argsort_ok
           scenario_heap 0 1 scenario_table ["odor"; "bruises"]%string
           fr eq_refl eq_refl Hrun).
Defined.

Lemma summary_rows_fmap t cs rows :
  Forall2 (summary_of t) cs rows →
  rows = (λ c, let xs := default [] (t !! c) in
               Row c (length (unique xs)) (unique xs)) <$> cs.
Proof.
  induction 1 as [|c r cs rows (xs & Hc & ->) _ IH]; [done|].
  rewrite fmap_cons. cbv zeta. rewrite Hc. simpl. by f_equal.
Qed.

(** X5: asking for the same names in another order changes the order of
    the returned rows at most: both calls return, with the same rows up to
    their order and the same labels, or both raise. *)
Theorem cat_var_cols_permutation `{!ArgSort, !ArgSortOk}
    (h : heap) (df cols1 cols2 : loc) (T : table) (C1 C2 : list string) :
  h !! df = Some (OTable T) →
  h !! cols1 = Some (OList C1) → h !! cols2 = Some (OList C2) →
  C1 ≡ₚ C2 →
  (∃ fr1 fr2, call_cat_var h df cols1 = inr fr1 ∧
              call_cat_var h df cols2 = inr fr2 ∧
              fr1.*2 ≡ₚ fr2.*2 ∧ fr1.*1 = fr2.*1) ∨
  (∃ e1 e2, call_cat_var h df cols1 = inl e1 ∧
            call_cat_var h df cols2 = inl e2).
Proof.
  intros Hdf H1 H2 Hperm.
  rewrite (run_call_cat_var _ _ _ _ _ Hdf H1),
          (run_call_cat_var _ _ _ _ _ Hdf H2).
  destruct (summarize T C1) as [e1|fr1] eqn:Hs1,
           (summarize T C2) as [e2|fr2] eqn:Hs2.
  - right. eauto.
  - assert (∃ fr, summarize T C1 = inr fr) as [? ?]; [|congruence].
    apply summarize_returns.
    destruct (proj1 (summarize_returns T C2)) as [Hne Hp]; [eauto|].
    split.
    + intros ->. by apply Permutation_nil_l in Hperm.
    + unfold all_present. by rewrite Hperm.
  - assert (∃ fr, summarize T C2 = inr fr) as [? ?]; [|congruence].
    apply summarize_returns.
    destruct (proj1 (summarize_returns T C1)) as [Hne Hp]; [eauto|].
    split.
    + intros ->. by apply Permutation_nil_r in Hperm.
    + unfold all_present. by rewrite <- Hperm.
  - left. exists fr1, fr2. split_and!; [done..| |].
    + apply summarize_inr in Hs1 as (_ & _ & rows1 & Hr1 & _ & ->).
      apply summarize_inr in Hs2 as (_ & _ & rows2 & Hr2 & _ & ->).
      rewrite !sorted_rows_perm.
      rewrite (summary_rows_fmap _ _ _ Hr1), (summary_rows_fmap _ _ _ Hr2).
      by rewrite Hperm.
    + apply summarize_inr in Hs1 as (_ & _ & _ & _ & -> & _).
      apply summarize_inr in Hs2 as (_ & _ & _ & _ & -> & _).
      by rewrite Hperm.
Qed.

Lemma cat_var_cols_permutation_witness :
  both_orders_heap !! 0 = Some (OTable scenario_table) ∧
  both_orders_heap !! 1 = Some (OList ["odor"; "bruises"]%string) ∧
  both_orders_heap !! 2 = Some (OList ["bruises"; "odor"]%string) ∧
  ["odor"; "bruises"]%string ≡ₚ ["bruises"; "odor"]%string ∧
  ((∃ fr1 fr2,
      call_cat_var (AS := stable_argsort) both_orders_heap 0 1 = inr fr1 ∧
      call_cat_var (AS := stable_argsort) both_orders_heap 0 2 = inr fr2 ∧
      fr1.*2 ≡ₚ fr2.*2 ∧ fr1.*1 = fr2.*1) ∨
   (∃ e1 e2,
      call_cat_var (AS := stable_argsort) both_orders_heap 0 1 = inl e1 ∧
      call_cat_var (AS := stable_argsort) both_orders_heap 0 2 = inl e2)).
Proof.
  assert (Hp : ["odor"; "bruises"]%string ≡ₚ ["bruises"; "odor"]%string)
    by apply Permutation_swap.
  split; [reflexivity|]. split; [reflexivity|]. split; [reflexivity|].
  split; [exact Hp|].
  exact (@cat_var_cols_permutation stable_argsort stable_argsort_ok
           both_orders_heap 0 1 2 scenario_table _ _
           eq_refl eq_refl eq_refl Hp).
Defined.

(* ================================================================== *)
(** * Running the encoding cell *)
(* ================================================================== *)

Lemma load_middle h1 o h2 :
  load (length h1) (h1 ++ o :: h2) = (inr o, h1 ++ o :: h2).
Proof. unfold load. by rewrite list_lookup_middle. Qed.

Lemma store_middle h1 o o' h2 :
  store (length h1) o' (h1 ++ o :: h2) = (inr (), h1 ++ o' :: h2).
Proof.
  unfold store. f_equal.
  rewrite (insert_app_r_alt h1) by done. by rewrite Nat.sub_diag.
Qed.

Lemma run_encode_body h1 t h2 c :
  encode_body (length h1) c (h1 ++ OTable t :: h2) =
  match t !! c with
  | None => (inl (KeyError c), h1 ++ OTable t :: h2)
  | Some xs =>
      match series_apply ordinal_encoding xs with
      | inl e => (inl e, h1 ++ OTable t :: h2)
      | inr ys => (inr (), h1 ++ OTable (<[c := ys]> t) :: h2)
      end
  end.
Proof.
  unfold encode_body, getitem, bind. rewrite load_middle.
  destruct (t !! c) as [xs|]; [|done]. simpl.
  destruct (series_apply ordinal_encoding xs) as [e|ys]; [done|].
  unfold setitem, bind. by rewrite load_middle, store_middle.
Qed.

Lemma run_encode_for_each h1 t h2 cs :
  for_each cs (encode_body (length h1)) (h1 ++ OTable t :: h2) =
  (match (encode_cols t cs).1 with
   | Some e => inl e
   | None => inr ()
   end, h1 ++ OTable (encode_cols t cs).2 :: h2).
Proof.
  revert t. induction cs as [|c cs IH]; intros t; simpl; [done|].
  unfold bind. rewrite run_encode_body.
  destruct (t !! c) as [xs|]; [|done].
  destruct (series_apply ordinal_encoding xs) as [e|ys]; [done|].
  apply IH.
Qed.

Lemma filter_absent_nil (t : table) cs :
  all_present t cs → filter (λ c, t !! c = None) cs = [].
Proof.
  induction 1 as [|c cs [xs Hx] _ IH]; [done|].
  rewrite filter_cons_False; [done|]. by rewrite Hx.
Qed.

Lemma run_encode_loop_at h1 t h2 cat_cols C :
  h1 !! cat_cols = Some (OList C) →
  encode_loop (length h1) cat_cols (h1 ++ OTable t :: h2) =
  (match (encode_cols t C).1 with
   | Some e => inl e
   | None => inr ()
   end, h1 ++ OTable (encode_cols t C).2 :: h2).
Proof.
  intros Hc. unfold encode_loop, list_items, bind.
  rewrite (load_old _ _ _ _ Hc). apply run_encode_for_each.
Qed.

Section run_cell.
Context `{!IndexMessage}.
Variables (h : heap) (mushrooms cat_cols : loc) (T : table) (C : list string).
Hypothesis Hm : h !! mushrooms = Some (OTable T).
Hypothesis Hc : h !! cat_cols = Some (OList C).

Lemma run_list_items g : list_items cat_cols (h ++ g) = (inr C, h ++ g).
Proof. unfold list_items, bind. by rewrite (load_old _ _ _ _ Hc). Qed.

Lemma run_getitem_list_absent :
  ¬ all_present T C →
  getitem_list mushrooms cat_cols h =
  (inl (KeyError (not_in_index C (filter (λ c, T !! c = None) C))), h).
Proof.
  intros Hn. unfold getitem_list, bind.
  pose proof (load_old h _ _ [] Hm) as Hl. rewrite app_nil_r in Hl.
  rewrite Hl. pose proof (run_list_items []) as Hi.
  rewrite app_nil_r in Hi. rewrite Hi.
  rewrite decide_False; [done|]. intros Hnil. apply Hn.
  apply Forall_forall. intros c Hin.
  destruct (T !! c) as [xs|] eqn:Hx; [by eexists|].
  assert (c ∈ filter (λ c, T !! c = None) C) as Hf
    by by apply list_elem_of_filter.
  rewrite Hnil in Hf. by apply elem_of_nil in Hf.
Qed.

Lemma run_encode_cell_absent :
  ¬ all_present T C →
  encode_cell mushrooms cat_cols h =
  (inl (KeyError (not_in_index C (filter (λ c, T !! c = None) C))), h).
Proof.
  intros Hn. unfold encode_cell, bind. by rewrite run_getitem_list_absent.
Qed.

Lemma run_encode_cell_present :
  all_present T C →
  encode_cell mushrooms cat_cols h =
  (match (encode_cols (select T C) C).1 with
   | Some e => inl e
   | None => inr (length h + 1)
   end,
   h ++ [OTable (select T C); OTable (encode_cols (select T C) C).2]).
Proof.
  intros Hp. unfold encode_cell. unfold bind at 1.
  unfold getitem_list, bind at 1 2.
  pose proof (load_old h _ _ [] Hm) as Hl. rewrite app_nil_r in Hl.
  rewrite Hl. pose proof (run_list_items []) as Hi.
  rewrite app_nil_r in Hi. rewrite Hi.
  rewrite decide_True by by apply filter_absent_nil.
  unfold alloc at 1. unfold bind at 1. unfold copy, bind at 1.
  pose proof (load_middle h (OTable (select T C)) []) as Hl2. rewrite Hl2.
  unfold alloc at 1. rewrite length_app. simpl length.
  unfold bind.
  assert (Hloop :
    encode_loop (length h + 1) cat_cols
      (h ++ [OTable (select T C); OTable (select T C)]) =
    (match (encode_cols (select T C) C).1 with
     | Some e => inl e
     | None => inr ()
     end,
     h ++ [OTable (select T C); OTable (encode_cols (select T C) C).2])).
  { pose proof (run_encode_loop_at (h ++ [OTable (select T C)])
                  (select T C) [] cat_cols C) as Hloop.
    rewrite length_app, <- !app_assoc in Hloop. simpl in Hloop.
    apply Hloop. by apply lookup_app_l_Some. }
  rewrite <- app_assoc. simpl. rewrite Hloop.
  by destruct (encode_cols (select T C) C).1.
Qed.
End run_cell.

(* ================================================================== *)
(** * What [ordinal_encoding] accepts, and where two codes meet *)
(* ================================================================== *)

Lemma ordinal_encoding_inr x z :
  ordinal_encoding x = inr z →
  ∃ n, (n ≤ max_code_point)%N ∧ x = Str (chr n) ∧
       (n = 63%N ∧ z = 27%Z ∨ n ≠ 63%N ∧ z = (Z.of_N n - 96)%Z).
Proof.
  unfold ordinal_encoding. case_decide as Hq.
  - intros [= <-]. exists 63%N. split; [done|]. split; [done|]. by left.
  - destruct x as [s| |]; try done.
    destruct (ord s) as [m|] eqn:Hs; [|done]. intros [= <-].
    apply ord_Some in Hs as (n & Hn & -> & ->).
    exists n. split; [done|]. split; [done|]. right.
    split; [|done]. by intros ->.
Qed.

Lemma ordinal_encoding_inl x e :
  ordinal_encoding x = inl e → e = TypeError ∧ ¬ one_char x.
Proof.
  unfold ordinal_encoding. case_decide as Hq; [done|].
  destruct x as [s| |].
  - destruct (ord s) as [m|] eqn:Hs; [done|]. intros [= <-].
    split; [done|]. by apply ord_None.
  - intros [= <-]. split; [done|]. by intros (? & ? & [=]).
  - intros [= <-]. split; [done|]. by intros (? & ? & [=]).
Qed.

Lemma ordinal_encoding_one_char x :
  (∃ z, ordinal_encoding x = inr z) ↔ one_char x.
Proof.
  split.
  - intros [z (n & ? & -> & _)%ordinal_encoding_inr]. by exists n.
  - intros (n & Hn & ->). rewrite ordinal_encoding_chr by done. eauto.
Qed.

(** X6: [ordinal_encoding] returns a code exactly on the strings of one
    character, of any code point up to 0x10FFFF; on every other cell (the
    empty string, a string of two characters, an integer, the missing
    marker) it raises, and what it raises is always [TypeError]. *)
Theorem ordinal_encoding_returns_iff :
  (∀ x, (∃ z, ordinal_encoding x = inr z) ↔ one_char x) ∧
  (∀ x, ordinal_encoding x = inl TypeError ↔ ¬ one_char x) ∧
  (∀ x e, ordinal_encoding x = inl e → e = TypeError) ∧
  (∀ n, (n ≤ max_code_point)%N →
     ∃ z, ordinal_encoding (Str (chr n)) = inr z) ∧
  (∀ n m, (n ≤ max_code_point)%N → (m ≤ max_code_point)%N →
     ordinal_encoding (Str (chr n +:+ chr m)) = inl TypeError) ∧
  ordinal_encoding (Str "") = inl TypeError ∧
  ordinal_encoding (Str "ab") = inl TypeError ∧
  ordinal_encoding (Str "€€") = inl TypeError ∧
  ordinal_encoding (Str "€") = inr 8268%Z ∧
  ordinal_encoding (Int 14) = inl TypeError ∧
  ordinal_encoding NaN = inl TypeError.
Proof.
  pose proof ordinal_encoding_one_char as H1.
  split_and!; try done.
  - intros x. split; [by intros [_ ?]%ordinal_encoding_inl|].
    intros Hn. destruct (ordinal_encoding x) as [e|z] eqn:Hx.
    + by apply ordinal_encoding_inl in Hx as [-> _].
    + destruct Hn. apply H1. eauto.
  - intros x e. by intros [-> _]%ordinal_encoding_inl.
  - intros n Hn. apply H1. by exists n.
  - intros n m Hn Hm. unfold ordinal_encoding.
    rewrite decide_False.
    + rewrite (proj2 (ord_None _)); [done|].
      intros (k & Hk & [= Hs]). by apply (chr_app_not_chr n m k).
    + intros [= Hs]. by apply (chr_app_not_chr n m 63).
Qed.

Lemma ordinal_encoding_returns_iff_witness :
  (8364 ≤ max_code_point)%N ∧ (233 ≤ max_code_point)%N ∧
  (∃ z, ordinal_encoding (Str "€") = inr z) ∧
  ordinal_encoding (Str "€é") = inl TypeError.
Proof.
  assert (H1 : (8364 ≤ max_code_point)%N) by (by vm_compute).
  assert (H2 : (233 ≤ max_code_point)%N) by (by vm_compute).
  split; [exact H1|]. split; [exact H2|]. split.
  - exact (proj1 (proj2 (proj2 (proj2 ordinal_encoding_returns_iff)))
             8364%N H1).
  - exact (proj1 (proj2 (proj2 (proj2 (proj2 ordinal_encoding_returns_iff))))
             8364%N 233%N H1 H2).
Defined.

Lemma ordinal_encoding_same_code x y z :
  ordinal_encoding x = inr z → ordinal_encoding y = inr z →
  x = y ∨ (x = Str "?" ∧ y = Str "{") ∨ (x = Str "{" ∧ y = Str "?").
Proof.
  intros (n1 & ? & -> & H1)%ordinal_encoding_inr
         (n2 & ? & -> & H2)%ordinal_encoding_inr.
  assert (Hbrace : ∀ n : N, (Z.of_N n - 96)%Z = 27%Z → n = 123%N) by lia.
  destruct H1 as [[-> ->]|[Hc1 ->]], H2 as [[-> Hz]|[Hc2 Hz]].
  - by left.
  - right. left. split; [done|]. by rewrite (Hbrace n2).
  - right. right. split; [|done]. by rewrite (Hbrace n1).
  - left. do 2 f_equal. lia.
Qed.

(** X7: two one-character strings with the same code are the same string,
    unless they are ['?'] and ['{']; and the character of any cell but
    ['?'] is got back from its code by adding 96. *)
Theorem ordinal_encoding_collision (x y : value) (z : Z) :
  ordinal_encoding x = inr z → ordinal_encoding y = inr z →
  (x = y ∨ (x = Str "?" ∧ y = Str "{") ∨ (x = Str "{" ∧ y = Str "?")) ∧
  (x ≠ Str "?" → x = Str (chr (Z.to_N (z + 96)))).
Proof.
  intros Hx Hy. split; [by eapply ordinal_encoding_same_code|].
  apply ordinal_encoding_inr in Hx as (n & _ & -> & Hn).
  intros Hne. destruct Hn as [[-> _]|[_ ->]]; [done|].
  do 2 f_equal. lia.
Qed.

Lemma ordinal_encoding_collision_witness :
  ordinal_encoding (Str "{") = inr 27%Z ∧
  ordinal_encoding (Str "?") = inr 27%Z ∧
  (Str "{" = Str "?" ∨ (Str "{" = Str "?" ∧ Str "?" = Str "{") ∨
   (Str "{" = Str "{" ∧ Str "?" = Str "?")) ∧
  (Str "{" ≠ Str "?" → Str "{" = Str (chr (Z.to_N (27 + 96)))).
Proof.
  split; [reflexivity|]. split; [reflexivity|].
  exact (ordinal_encoding_collision (Str "{") (Str "?") 27 eq_refl eq_refl).
Defined.

(* ================================================================== *)
(** * The columns that the loop leaves *)
(* ================================================================== *)

Lemma series_apply_inr xs ys :
  series_apply ordinal_encoding xs = inr ys ↔ Forall2 code_of xs ys.
Proof.
  revert ys. induction xs as [|x xs IH]; intros ys; simpl.
  - split; [by intros [= <-]|by inversion 1].
  - destruct (ordinal_encoding x) as [e|z] eqn:Hx.
    + split; [done|]. inversion 1 as [|???? (z & Hz & _)]; congruence.
    + destruct (series_apply ordinal_encoding xs) as [e|ys'] eqn:Hxs.
      * split; [done|]. inversion 1 as [|? y ? ys' _ Hys]; subst.
        by apply IH in Hys.
      * split.
        -- intros [= <-]. constructor; [by exists z|by apply IH].
        -- inversion 1 as [|? y ? ys'' (z' & Hz' & ->) Hys]; subst.
           apply IH in Hys. congruence.
Qed.

Lemma series_apply_one_char xs :
  (∃ ys, series_apply ordinal_encoding xs = inr ys) ↔ Forall one_char xs.
Proof.
  split.
  - intros [ys Hys%series_apply_inr].
    induction Hys as [|x y xs ys (z & Hz & _) _ IH]; constructor; [|done].
    apply ordinal_encoding_one_char. eauto.
  - induction 1 as [|x xs Hx _ [ys IH]]; [by exists []|]. simpl.
    apply ordinal_encoding_one_char in Hx as [z ->].
    rewrite IH. eauto.
Qed.

Lemma series_apply_inl xs e :
  series_apply ordinal_encoding xs = inl e →
  e = TypeError ∧ ¬ Forall one_char xs.
Proof.
  intros He. split.
  - revert He. induction xs as [|x xs IH]; simpl; [done|].
    destruct (ordinal_encoding x) as [e'|z] eqn:Hx.
    + intros [= <-]. by apply ordinal_encoding_inl in Hx as [-> _].
    + destruct (series_apply ordinal_encoding xs); [|done].
      intros [= <-]. by apply IH.
  - intros [ys Hys]%series_apply_one_char. congruence.
Qed.

Lemma code_of_code x y : code_of x y ↔ one_char x ∧ y = code x.
Proof.
  unfold code_of, code. split.
  - intros (z & Hz & ->). rewrite Hz. split; [|done].
    apply ordinal_encoding_one_char. eauto.
  - intros [[z Hz]%ordinal_encoding_one_char ->]. rewrite Hz. eauto.
Qed.

Lemma Forall2_code_of xs ys :
  Forall2 code_of xs ys ↔ Forall one_char xs ∧ ys = code <$> xs.
Proof.
  split.
  - induction 1 as [|x y xs ys [Hx ->]%code_of_code _ [IH ->]]; [done|].
    split; [by constructor|done].
  - intros [Hxs ->]. induction Hxs as [|x xs Hx _ IH]; constructor; [|done].
    by apply code_of_code.
Qed.

Lemma lookup_select (t : table) cs c :
  select t cs !! c = if decide (c ∈ cs) then t !! c else None.
Proof.
  unfold select. rewrite map_lookup_filter.
  destruct (t !! c) as [xs|]; simpl; [|by case_decide].
  case_decide.
  - by rewrite option_guard_True.
  - by rewrite option_guard_False.
Qed.

(** The loop on a list without repetition: the columns it has replaced
    by their codes when it ends or stops, and the column at which it
    stops. *)
Lemma encode_cols_spec t cs :
  NoDup cs →
  ∃ replaced,
    ((encode_cols t cs).1 = None ∧ replaced = cs ∨
     ∃ c post e, (encode_cols t cs).1 = Some e ∧
       cs = replaced ++ c :: post ∧
       (t !! c = None ∧ e = KeyError c ∨
        ∃ xs, t !! c = Some xs ∧
              series_apply ordinal_encoding xs = inl e)) ∧
    (∀ c, c ∈ replaced →
       ∃ xs ys, t !! c = Some xs ∧ Forall2 code_of xs ys ∧
                (encode_cols t cs).2 !! c = Some ys) ∧
    (∀ c, c ∉ replaced → (encode_cols t cs).2 !! c = t !! c).
Proof.
  intros Hnd. revert t.
  induction Hnd as [|c cs Hc Hnd IH]; intros t; simpl.
  { exists []. split_and!; [by left| |done]. by intros c ?%elem_of_nil. }
  destruct (t !! c) as [xs|] eqn:Hx.
  2:{ exists []. split_and!; [|by intros ? ?%elem_of_nil|done].
      right. exists c, cs, (KeyError c). split_and!; [done..|]. by left. }
  destruct (series_apply ordinal_encoding xs) as [e|ys] eqn:Hys.
  { exists []. split_and!; [|by intros ? ?%elem_of_nil|done].
    right. exists c, cs, e. split_and!; [done..|]. right. eauto. }
  destruct (IH (<[c:=ys]> t)) as (rep & Hstop & Hrep & Hrest).
  assert (Hsub : ∀ c', c' ∈ rep → c' ∈ cs).
  { destruct Hstop as [[_ ->]|(c' & post & e & _ & -> & _)]; [done|].
    intros c'' ?. apply elem_of_app. by left. }
  assert (Hne : ∀ c', c' ∈ cs → c ≠ c') by (intros c' ? ->; done).
  exists (c :: rep). split_and!.
  - destruct Hstop as [[Hs ->]|(c' & post & e & Hs & -> & Hwhy)];
      [by left|right].
    exists c', post, e. split_and!; [done..|].
    rewrite lookup_insert_ne in Hwhy; [done|].
    apply Hne, elem_of_app. right. by left.
  - intros c' [->|Hin]%elem_of_cons.
    + exists xs, ys. split_and!; [done|by apply series_apply_inr|].
      rewrite Hrest; [by rewrite lookup_insert_eq|].
      intros ?%Hsub. done.
    + destruct (Hrep c' Hin) as (xs' & ys' & Hx' & Hc' & Hr').
      exists xs', ys'. split_and!; [|done..].
      rewrite lookup_insert_ne in Hx'; [done|]. by apply Hne, Hsub.
  - intros c' [Hcc Hin]%not_elem_of_cons.
    rewrite Hrest by done. by rewrite lookup_insert_ne.
Qed.

(* ================================================================== *)
(** * Properties of the encoding cell *)
(* ================================================================== *)

Lemma NoDup_scenario : NoDup ["odor"; "bruises"]%string.
Proof. apply (bool_decide_unpack _). vm_compute. exact I. Qed.

Lemma all_present_select (T : table) C c :
  all_present T C → c ∈ C → select T C !! c = T !! c ∧ is_Some (T !! c).
Proof.
  intros Hp Hc. rewrite lookup_select, decide_True by done.
  split; [done|]. by eapply Forall_forall in Hp.
Qed.

Lemma encode_cols_select_returns (T : table) C :
  NoDup C → all_present T C →
  (encode_cols (select T C) C).1 = None ↔
  ∀ c xs, c ∈ C → T !! c = Some xs → Forall one_char xs.
Proof.
  intros Hnd Hp.
  destruct (encode_cols_spec (select T C) C Hnd)
    as (rep & Hstop & Hrep & _).
  split.
  - intros Hnone c xs Hc Hxs.
    destruct Hstop as [[_ ->]|(? & ? & ? & ? & _)]; [|congruence].
    destruct (Hrep c Hc) as (xs' & ys & Hx' & Hcode & _).
    destruct (all_present_select T C c Hp Hc) as [Hsel _].
    assert (xs' = xs) as -> by congruence.
    apply series_apply_one_char. exists ys. by apply series_apply_inr.
  - intros Hall.
    destruct Hstop as [[? _]|(c & post & e & _ & -> & Hwhy)]; [done|].
    assert (Hc : c ∈ rep ++ c :: post) by (apply elem_of_app; right; by left).
    destruct (all_present_select T _ c Hp Hc) as [Hsel [xs Hxs]].
    rewrite Hsel, Hxs in Hwhy.
    destruct Hwhy as [[? _]|(xs' & [= <-] & Hbad)]; [done|].
    apply series_apply_inl in Hbad as [_ Hbad].
    destruct Hbad. by apply (Hall c).
Qed.

(** X8: on a list of labels without repetition that are all columns, the
    encoding cell runs to its end exactly when every cell of the listed
    columns is a string of one character. *)
Theorem encode_cell_returns_iff `{!IndexMessage}
    (h : heap) (mushrooms cat_cols : loc) (T : table) (C : list string) :
  h !! mushrooms = Some (OTable T) → h !! cat_cols = Some (OList C) →
  NoDup C → all_present T C →
  (∃ l, (encode_cell mushrooms cat_cols h).1 = inr l) ↔
  ∀ c xs, c ∈ C → T !! c = Some xs → Forall one_char xs.
Proof.
  intros Hm Hc Hnd Hp.
  rewrite (run_encode_cell_present _ _ _ _ _ Hm Hc Hp). simpl.
  rewrite <- (encode_cols_select_returns T C Hnd Hp).
  destruct (encode_cols (select T C) C).1; split; try done; eauto.
  by intros [? ?].
Qed.

Lemma encode_cell_returns_iff_witness :
  scenario_heap !! 0 = Some (OTable scenario_table) ∧
  scenario_heap !! 1 = Some (OList ["odor"; "bruises"]%string) ∧
  NoDup ["odor"; "bruises"]%string ∧
  all_present scenario_table ["odor"; "bruises"]%string ∧
  ((∃ l, (encode_cell (IM := plain_message) 0 1 scenario_heap).1 = inr l) ↔
   ∀ c xs, c ∈ ["odor"; "bruises"]%string → scenario_table !! c = Some xs →
           Forall one_char xs).
Proof.
  split; [reflexivity|]. split; [reflexivity|].
  split; [exact NoDup_scenario|]. split; [apply all_present_scenario|].
  exact (@encode_cell_returns_iff plain_message scenario_heap 0 1
           scenario_table _ eq_refl eq_refl NoDup_scenario
           all_present_scenario).
Defined.

Lemma run_encode_cell_inr `{!IndexMessage}
    (h h' : heap) (mushrooms cat_cols l : loc) (T : table) (C : list string) :
  h !! mushrooms = Some (OTable T) → h !! cat_cols = Some (OList C) →
  NoDup C →
  encode_cell mushrooms cat_cols h = (inr l, h') →
  all_present T C ∧ l = length h + 1 ∧
  ∃ T', h' = h ++ [OTable (select T C); OTable T'] ∧
    (∀ c, c ∈ C → ∃ xs, T !! c = Some xs ∧ Forall one_char xs ∧
                        T' !! c = Some (code <$> xs)) ∧
    (∀ c, c ∉ C → T' !! c = None).
Proof.
  intros Hm Hc Hnd Hrun.
  destruct (decide (all_present T C)) as [Hp|Hn].
  2:{ by rewrite (run_encode_cell_absent _ _ _ _ _ Hm Hc Hn) in Hrun. }
  rewrite (run_encode_cell_present _ _ _ _ _ Hm Hc Hp) in Hrun.
  destruct (encode_cols_spec (select T C) C Hnd)
    as (rep & Hstop & Hrep & Hrest).
  destruct (encode_cols (select T C) C) as [[e|] T'] eqn:Henc;
    simpl in *; [done|].
  injection Hrun as <- <-.
  destruct Hstop as [[_ ->]|(? & ? & ? & ? & _)]; [|done].
  split_and!; [done..|]. exists T'. split_and!; [done| |].
  - intros c Hin.
    destruct (Hrep c Hin) as (xs & ys & Hx & [Hone ->]%Forall2_code_of & Hy).
    destruct (all_present_select T C c Hp Hin) as [Hsel _].
    exists xs. split_and!; [congruence|done..].
  - intros c Hnin. by rewrite (Hrest c Hnin), lookup_select, decide_False.
Qed.

(** X9: when the cell runs to its end, the frame it leaves is a new object
    with exactly the listed columns, each holding cell by cell the codes of
    the column of that label of the table; the table itself and every other
    object that was in the store are as before. *)
Theorem encode_cell_result `{!IndexMessage}
    (h h' : heap) (mushrooms cat_cols l : loc) (T : table) (C : list string) :
  h !! mushrooms = Some (OTable T) → h !! cat_cols = Some (OList C) →
  NoDup C →
  encode_cell mushrooms cat_cols h = (inr l, h') →
  h `prefix_of` h' ∧ h' !! mushrooms = Some (OTable T) ∧ h !! l = None ∧
  ∃ T', h' !! l = Some (OTable T') ∧
    (∀ c, is_Some (T' !! c) ↔ c ∈ C) ∧
    ∀ c xs, c ∈ C → T !! c = Some xs →
      ∃ ys, T' !! c = Some ys ∧ Forall2 code_of xs ys.
Proof.
  intros Hm Hc Hnd Hrun.
  destruct (run_encode_cell_inr h h' _ _ l T C Hm Hc Hnd Hrun)
    as (Hp & -> & T' & -> & Hin & Hout).
  split_and!.
  - by apply prefix_app_r.
  - by apply lookup_app_l_Some.
  - apply lookup_ge_None. lia.
  - exists T'. split_and!.
    + by rewrite lookup_app_r, Nat.add_comm, Nat.add_sub by lia.
    + intros c. split.
      * intros Hsome. destruct (decide (c ∈ C)) as [|Hnc]; [done|].
        rewrite (Hout c Hnc) in Hsome. by destruct Hsome.
      * intros (xs & _ & _ & ->)%Hin. eauto.
    + intros c xs HcC Hxs.
      destruct (Hin c HcC) as (xs' & Hxs' & Hone & Hy).
      assert (xs' = xs) as -> by congruence.
      exists (code <$> xs). split; [done|]. by apply Forall2_code_of.
Qed.

Lemma encode_cell_result_witness :
  let res := encode_cell (IM := plain_message) 0 1 scenario_heap in
  scenario_heap !! 0 = Some (OTable scenario_table) ∧
  scenario_heap !! 1 = Some (OList ["odor"; "bruises"]%string) ∧
  NoDup ["odor"; "bruises"]%string ∧
  res = (inr 3, res.2) ∧
  scenario_heap `prefix_of` res.2 ∧
  res.2 !! 0 = Some (OTable scenario_table) ∧ scenario_heap !! 3 = None ∧
  ∃ T', res.2 !! 3 = Some (OTable T') ∧
    (∀ c, is_Some (T' !! c) ↔ c ∈ ["odor"; "bruises"]%string) ∧
    ∀ c xs, c ∈ ["odor"; "bruises"]%string → scenario_table !! c = Some xs →
      ∃ ys, T' !! c = Some ys ∧ Forall2 code_of xs ys.
Proof.
  intros res.
  assert (Hres : res = (inr 3, res.2)) by (vm_compute; reflexivity).
  split; [reflexivity|]. split; [reflexivity|].
  split; [exact NoDup_scenario|]. split; [exact Hres|].
  exact (@encode_cell_result plain_message scenario_heap res.2 0 1 3
           scenario_table _ eq_refl eq_refl NoDup_scenario Hres).
Defined.

Example encode_cell_run :
  (encode_cell (IM := plain_message) 0 1 scenario_heap).2 !! 3 =
  Some (OTable {[ "odor"%string := [Int 14; Int 6; Int 14; Int 25];
                  "bruises"%string := [Int 20; Int 6] ]}).
Proof. vm_compute. reflexivity. Qed.

Example encode_cell_run_signs :
  (encode_cell (IM := plain_message) 0 1 signs_heap).1 = inr 3 ∧
  (encode_cell (IM := plain_message) 0 1 signs_heap).2 !! 3 =
  Some (OTable {[ "sign"%string :=
                    [Int 137; Int 8268; Int 118974; Int 8268] ]}).
Proof. split; vm_compute; reflexivity. Qed.

(** X10: if one of the listed labels is not a column of the table, the cell
    raises [KeyError] with the message for the labels that are missing,
    before anything is copied: the store is as it was. *)
Theorem encode_cell_missing_label `{!IndexMessage}
    (h : heap) (mushrooms cat_cols : loc) (T : table) (C : list string) :
  h !! mushrooms = Some (OTable T) → h !! cat_cols = Some (OList C) →
  (∃ c, c ∈ C ∧ T !! c = None) →
  ∃ missing,
    encode_cell mushrooms cat_cols h =
      (inl (KeyError (not_in_index C missing)), h) ∧
    missing ≠ [] ∧
    ∀ c, c ∈ missing ↔ c ∈ C ∧ T !! c = None.
Proof.
  intros Hm Hc (c0 & Hin & Hc0).
  exists (filter (λ c, T !! c = None) C). split_and!.
  - apply (run_encode_cell_absent _ _ _ _ _ Hm Hc).
    intros Hp. eapply Forall_forall in Hp as [? ?]; [|done]. congruence.
  - intros Hnil.
    assert (c0 ∈ filter (λ c, T !! c = None) C) as Hf
      by by apply list_elem_of_filter.
    rewrite Hnil in Hf. by apply elem_of_nil in Hf.
  - intros c. rewrite list_elem_of_filter. tauto.
Qed.

Lemma encode_cell_missing_label_witness :
  missing_heap !! 0 = Some (OTable scenario_table) ∧
  missing_heap !! 1 = Some (OList ["odor"; "habitat"; "bruises"]%string) ∧
  (∃ c, c ∈ ["odor"; "habitat"; "bruises"]%string ∧
        scenario_table !! c = None) ∧
  ∃ missing,
    encode_cell (IM := plain_message) 0 1 missing_heap =
      (inl (KeyError (plain_message ["odor"; "habitat"; "bruises"]%string
                        missing)), missing_heap) ∧
    missing ≠ [] ∧
    ∀ c, c ∈ missing ↔
         c ∈ ["odor"; "habitat"; "bruises"]%string ∧
         scenario_table !! c = None.
Proof.
  assert (Hm : ∃ c, c ∈ ["odor"; "habitat"; "bruises"]%string ∧
                    scenario_table !! c = None).
  { exists "habitat"%string. split; [|reflexivity]. right. left. }
  split; [reflexivity|]. split; [reflexivity|]. split; [exact Hm|].
  exact (@encode_cell_missing_label plain_message missing_heap 0 1
           scenario_table _ eq_refl eq_refl Hm).
Defined.

(** X11: if the columns listed before some column hold strings of one
    character only and that column has a cell that is not one, the cell
    raises [TypeError] and leaves the copy half encoded: the columns before
    hold codes, that column and the ones after it hold what the table
    holds.  The table is as before. *)
Theorem encode_cell_stops_half_way `{!IndexMessage}
    (h : heap) (mushrooms cat_cols : loc) (T : table)
    (pre post : list string) (c : string) (xs : list value) :
  h !! mushrooms = Some (OTable T) →
  h !! cat_cols = Some (OList (pre ++ c :: post)) →
  NoDup (pre ++ c :: post) → all_present T (pre ++ c :: post) →
  (∀ c' xs', c' ∈ pre → T !! c' = Some xs' → Forall one_char xs') →
  T !! c = Some xs → ¬ Forall one_char xs →
  (encode_cell mushrooms cat_cols h).1 = inl TypeError ∧
  (encode_cell mushrooms cat_cols h).2 !! mushrooms = Some (OTable T) ∧
  ∃ T', (encode_cell mushrooms cat_cols h).2 !! (length h + 1) =
          Some (OTable T') ∧
    (∀ c' xs', c' ∈ pre → T !! c' = Some xs' →
       ∃ ys, T' !! c' = Some ys ∧ Forall2 code_of xs' ys) ∧
    (∀ c', c' ∈ c :: post → T' !! c' = T !! c').
Proof.
  intros Hm Hc Hnd Hp Hpre Hxs Hbad.
  rewrite (run_encode_cell_present _ _ _ _ _ Hm Hc Hp).
  set (C := pre ++ c :: post) in *.
  destruct (encode_cols_spec (select T C) C Hnd)
    as (rep & Hstop & Hrep & Hrest).
  assert (Hsel : ∀ c', c' ∈ C → select T C !! c' = T !! c').
  { intros c' Hin. by apply all_present_select. }
  assert (HcC : c ∈ C) by (apply elem_of_app; right; by left).
  destruct Hstop as [[_ ->]|(c1 & post1 & e & Hs & Heq & Hwhy)].
  { destruct (Hrep c HcC) as (xs' & ys & Hx' & Hcode & _).
    rewrite Hsel, Hxs in Hx' by done. injection Hx' as <-.
    destruct Hbad. apply series_apply_one_char. exists ys.
    by apply series_apply_inr. }
  assert (Hc1 : c1 ∈ C) by (rewrite Heq; apply elem_of_app; right; by left).
  rewrite Hsel in Hwhy by done.
  destruct Hwhy as [[Hnone _]|(xs1 & Hx1 & Hfail)].
  { eapply Forall_forall in Hp as [? ?]; [|exact Hc1]. congruence. }
  apply series_apply_inl in Hfail as [-> Hbad1].
  (* the column at which the loop stops is [c] *)
  assert (Hsplit : rep = pre ∧ c1 = c ∧ post1 = post).
  { assert (Hc_rep : c ∉ rep).
    { intros Hin. destruct (Hrep c Hin) as (xs' & ys & Hx' & Hcode & _).
      rewrite Hsel, Hxs in Hx' by done. injection Hx' as <-.
      destruct Hbad. apply series_apply_one_char. exists ys.
      by apply series_apply_inr. }
    assert (Hc1_pre : c1 ∉ pre).
    { intros Hin. destruct Hbad1. by apply (Hpre c1). }
    unfold C in Heq. clear -Heq Hnd Hc_rep Hc1_pre.
    revert rep Heq Hc_rep. unfold C in Hnd.
    induction pre as [|p pre IH]; intros rep Heq Hc_rep.
    - destruct rep as [|r rep]; simpl in *.
      + by injection Heq as <- <-.
      + injection Heq as <- _. destruct Hc_rep. by left.
    - destruct rep as [|r rep]; simpl in *.
      + injection Heq as -> _. destruct Hc1_pre. by left.
      + injection Heq as <- Heq. apply NoDup_cons in Hnd as [_ Hnd].
        destruct (IH Hnd) with (rep := rep) as (-> & -> & ->); try done.
        * intros ?. apply Hc1_pre. by right.
        * intros ?. apply Hc_rep. by right. }
  destruct Hsplit as (-> & -> & ->).
  rewrite Hs. simpl. split_and!; [done|by apply lookup_app_l_Some|].
  eexists. split_and!.
  - by rewrite lookup_app_r, Nat.add_comm, Nat.add_sub by lia.
  - intros c' xs' Hin Hx'.
    destruct (Hrep c' Hin) as (xs'' & ys & Hx'' & Hcode & Hy).
    rewrite Hsel, Hx' in Hx'' by (apply elem_of_app; by left).
    injection Hx'' as <-. eauto.
  - intros c' Hin. rewrite Hrest.
    + apply Hsel, elem_of_app. by right.
    + intros Hin'. apply NoDup_app in Hnd as (_ & Hdisj & _).
      by apply (Hdisj c').
Qed.

Lemma NoDup_marked : NoDup ["stalk-root"; "ring-number"]%string.
Proof. apply (bool_decide_unpack _). vm_compute. exact I. Qed.

Lemma all_present_marked :
  all_present marked_table ["stalk-root"; "ring-number"]%string.
Proof. repeat constructor; eexists; reflexivity. Qed.

Lemma encode_cell_stops_half_way_witness :
  let xs := [Str "o"; Int 2; Str "t"; Str "o"] in
  let res := encode_cell (IM := plain_message) 0 1 marked_heap in
  marked_heap !! 0 = Some (OTable marked_table) ∧
  marked_heap !! 1 = Some (OList (["stalk-root"%string] ++ "ring-number"%string :: [])) ∧
  NoDup (["stalk-root"%string] ++ "ring-number"%string :: []) ∧
  all_present marked_table (["stalk-root"%string] ++ "ring-number"%string :: []) ∧
  (∀ c' xs', c' ∈ ["stalk-root"]%string → marked_table !! c' = Some xs' →
             Forall one_char xs') ∧
  marked_table !! "ring-number"%string = Some xs ∧ ¬ Forall one_char xs ∧
  res.1 = inl TypeError ∧
  res.2 !! 0 = Some (OTable marked_table) ∧
  ∃ T', res.2 !! (length marked_heap + 1) = Some (OTable T') ∧
    (∀ c' xs', c' ∈ ["stalk-root"]%string → marked_table !! c' = Some xs' →
       ∃ ys, T' !! c' = Some ys ∧ Forall2 code_of xs' ys) ∧
    (∀ c', c' ∈ ["ring-number"]%string → T' !! c' = marked_table !! c').
Proof.
  intros xs res.
  assert (Hpre : ∀ c' xs', c' ∈ ["stalk-root"]%string →
            marked_table !! c' = Some xs' → Forall one_char xs').
  { intros c' xs' ->%list_elem_of_singleton [= <-]. one_chars. }
  assert (Hbad : ¬ Forall one_char xs).
  { intros H. apply Forall_cons in H as [_ H].
    apply Forall_cons in H as [(? & ? & [=]) _]. }
  split; [reflexivity|]. split; [reflexivity|].
  split; [exact NoDup_marked|]. split; [exact all_present_marked|].
  split; [exact Hpre|]. split; [reflexivity|]. split; [exact Hbad|].
  exact (@encode_cell_stops_half_way plain_message marked_heap 0 1
           marked_table ["stalk-root"]%string [] "ring-number"%string xs
           eq_refl eq_refl NoDup_marked all_present_marked Hpre eq_refl Hbad).
Defined.

(** X12: the loop cannot be run twice: on the frame that the cell has
    left, it raises [TypeError] and changes nothing, as soon as the first
    listed column has a cell (its cells are integers by then). *)
Theorem encode_loop_again_raises `{!IndexMessage}
    (h h' : heap) (mushrooms cat_cols l : loc) (T : table)
    (c : string) (rest : list string) (x : value) (xs : list value) :
  h !! mushrooms = Some (OTable T) →
  h !! cat_cols = Some (OList (c :: rest)) →
  NoDup (c :: rest) →
  encode_cell mushrooms cat_cols h = (inr l, h') →
  T !! c = Some (x :: xs) →
  encode_loop l cat_cols h' = (inl TypeError, h').
Proof.
  intros Hm Hc Hnd Hrun Hx.
  destruct (run_encode_cell_inr h h' _ _ l T _ Hm Hc Hnd Hrun)
    as (_ & -> & T' & -> & Hin & _).
  destruct (Hin c) as (xs' & Hxs' & Hone & Hy); [by left|].
  assert (xs' = x :: xs) as -> by congruence.
  pose proof (run_encode_loop_at (h ++ [OTable (select T (c :: rest))])
                T' [] cat_cols (c :: rest)) as Hloop.
  rewrite length_app, <- !app_assoc in Hloop. simpl in Hloop.
  rewrite Hloop by by apply lookup_app_l_Some.
  simpl. rewrite Hy. simpl. unfold code.
  apply Forall_cons in Hone as [[z Hz]%ordinal_encoding_one_char _].
  by rewrite Hz.
Qed.

Lemma encode_loop_again_raises_witness :
  let res := encode_cell (IM := plain_message) 0 1 scenario_heap in
  scenario_heap !! 0 = Some (OTable scenario_table) ∧
  scenario_heap !! 1 = Some (OList ["odor"; "bruises"]%string) ∧
  NoDup ["odor"; "bruises"]%string ∧
  res = (inr 3, res.2) ∧
  scenario_table !! "odor"%string =
    Some [Str "n"; Str "f"; Str "n"; Str "y"] ∧
  encode_loop 3 1 res.2 = (inl TypeError, res.2).
Proof.
  intros res.
  assert (Hres : res = (inr 3, res.2)) by (vm_compute; reflexivity).
  split; [reflexivity|]. split; [reflexivity|].
  split; [exact NoDup_scenario|]. split; [exact Hres|].
  split; [reflexivity|].
  exact (@encode_loop_again_raises plain_message scenario_heap res.2 0 1 3
           scenario_table "odor"%string ["bruises"]%string _ _
           eq_refl eq_refl NoDup_scenario Hres eq_refl).
Defined.

(* ================================================================== *)
(** * The summary of the encoded frame *)
(* ================================================================== *)

Lemma code_inj_on xs x y :
  Forall one_char xs → no_collision xs →
  x ∈ xs → y ∈ xs → code x = code y → x = y.
Proof.
  intros Hone Hno Hx Hy. rewrite Forall_forall in Hone.
  destruct (proj2 (ordinal_encoding_one_char x) (Hone x Hx)) as [z Hz].
  destruct (proj2 (ordinal_encoding_one_char y) (Hone y Hy)) as [z' Hz'].
  unfold code. rewrite Hz, Hz'. intros [= <-].
  destruct (ordinal_encoding_same_code x y z Hz Hz')
    as [?|[[-> ->]|[-> ->]]]; [done|..]; destruct Hno; by split.
Qed.

Lemma unique_from_fmap (f : value → value) seen xs :
  (∀ x y, x ∈ seen ++ xs → y ∈ seen ++ xs → f x = f y → x = y) →
  unique_from (f <$> seen) (f <$> xs) = f <$> unique_from seen xs.
Proof.
  revert seen. induction xs as [|x xs IH]; intros seen Hinj; [done|].
  csimpl.
  assert (Hiff : f x ∈ f <$> seen ↔ x ∈ seen).
  { rewrite list_elem_of_fmap. split; [|by eauto].
    intros (y & Hxy & Hy).
    assert (x = y) as ->; [|done].
    apply Hinj; [|by apply elem_of_app; left|done].
    apply elem_of_app. right. by left. }
  destruct (decide (x ∈ seen)) as [Hin|Hnin].
  - rewrite decide_True by by apply Hiff. apply IH.
    intros y y' Hy Hy'. apply Hinj; set_solver.
  - rewrite decide_False by by rewrite Hiff. csimpl. f_equal.
    apply (IH (x :: seen)). intros y y' Hy Hy'. apply Hinj; set_solver.
Qed.

Lemma unique_codes xs :
  Forall one_char xs → no_collision xs →
  unique (code <$> xs) = code <$> unique xs.
Proof.
  intros Hone Hno. apply (unique_from_fmap code []).
  intros x y Hx Hy. by apply (code_inj_on xs).
Qed.

Lemma Forall2_take_at {A B} (R : A → B → Prop) a b p :
  Forall2 R a b → Forall2 R (take_at a p) (take_at b p).
Proof.
  intros Hab. unfold take_at. induction p as [|i p IH]; [constructor|].
  csimpl. destruct (a !! i) as [x|] eqn:Hx.
  - destruct (Forall2_lookup_l _ _ _ _ _ Hab Hx) as (y & -> & Hxy).
    by constructor.
  - destruct (b !! i) as [y|] eqn:Hy; [|done].
    destruct (Forall2_lookup_r _ _ _ _ _ Hab Hy) as (x & ? & _). congruence.
Qed.

Lemma collect_encoded (T T' : table) C :
  (∀ c, c ∈ C → ∃ xs, T !! c = Some xs ∧ T' !! c = Some (code <$> xs) ∧
                      Forall one_char xs ∧ no_collision xs) →
  ∃ rows rows', collect T C = (rows, None) ∧ collect T' C = (rows', None) ∧
                Forall2 row_encoded rows rows'.
Proof.
  induction C as [|c C IH]; intros Hall; simpl.
  { exists [], []. split_and!; [done..|constructor]. }
  destruct (Hall c) as (xs & -> & -> & Hone & Hno); [by left|].
  destruct IH as (rows & rows' & -> & -> & Hrows).
  { intros c' ?. apply Hall. by right. }
  eexists _, _. split_and!; [done..|]. constructor; [|done].
  unfold row_encoded. simpl. rewrite unique_codes by done.
  split_and!; [done|by rewrite length_fmap|].
  apply Forall2_code_of. split; [|done].
  apply Forall_forall. intros x Hx.
  apply (proj1 (elem_of_unique _ _)) in Hx.
  rewrite Forall_forall in Hone. by apply Hone.
Qed.

Lemma run_encode_and_check `{!ArgSort, !IndexMessage}
    (h h' : heap) (mushrooms cat_cols l : loc) :
  encode_cell mushrooms cat_cols h = (inr l, h') →
  returned_frame (encode_and_check mushrooms cat_cols h) =
  call_cat_var h' l cat_cols.
Proof. intros Hrun. unfold encode_and_check, bind. by rewrite Hrun. Qed.

(** X13: if every cell of the listed columns is a string of one character
    and no listed column holds both ['?'] and ['{'], the summary of the
    encoded frame is the summary of the table with the values replaced by
    their codes: the same rows in the same order, with the same labels,
    names and counts, whatever the sorting routine. *)
Theorem encode_then_cat_var `{!ArgSort, !IndexMessage}
    (h : heap) (mushrooms cat_cols : loc) (T : table) (C : list string) :
  h !! mushrooms = Some (OTable T) → h !! cat_cols = Some (OList C) →
  NoDup C → C ≠ [] → all_present T C →
  (∀ c xs, c ∈ C → T !! c = Some xs → Forall one_char xs ∧ no_collision xs) →
  ∃ fr fr',
    call_cat_var h mushrooms cat_cols = inr fr ∧
    returned_frame (encode_and_check mushrooms cat_cols h) = inr fr' ∧
    fr.*1 = fr'.*1 ∧ Forall2 row_encoded fr.*2 fr'.*2.
Proof.
  intros Hm Hc Hnd Hne Hp Hcells.
  assert (Hone : ∀ c xs, c ∈ C → T !! c = Some xs → Forall one_char xs).
  { intros c xs Hin Hxs. by destruct (Hcells c xs). }
  pose proof (run_encode_cell_present _ _ _ _ _ Hm Hc Hp) as Hrun.
  rewrite (proj2 (encode_cols_select_returns T C Hnd Hp) Hone) in Hrun.
  destruct (run_encode_cell_inr _ _ _ _ _ T C Hm Hc Hnd Hrun)
    as (_ & _ & T' & HT' & Hin & _).
  rewrite (run_encode_and_check _ _ _ _ _ Hrun), HT'.
  assert (Hc' : (h ++ [OTable (select T C); OTable T']) !! cat_cols =
                Some (OList C)) by by apply lookup_app_l_Some.
  assert (Hl' : (h ++ [OTable (select T C); OTable T']) !! (length h + 1) =
                Some (OTable T'))
    by by rewrite lookup_app_r, Nat.add_comm, Nat.add_sub by lia.
  rewrite (run_call_cat_var _ _ _ _ _ Hm Hc),
          (run_call_cat_var _ _ _ _ _ Hl' Hc').
  destruct (collect_encoded T T' C) as (rows & rows' & Hr & Hr' & Hrows).
  { intros c HcC. destruct (Hin c HcC) as (xs & Hxs & Hone' & Hy).
    exists xs. destruct (Hcells c xs HcC Hxs) as [_ Hno]. done. }
  unfold summarize. rewrite Hr, Hr'.
  destruct Hrows as [|r r' rows rows' Hrr Hrows].
  { destruct C; [done|]. simpl in Hr. destruct (T !! s); [|done].
    by destruct (collect T C). }
  assert (Hall : Forall2 row_encoded (r :: rows) (r' :: rows'))
    by by constructor.
  assert (Hkeys : number_of_possible_values <$> (r :: rows) =
                  number_of_possible_values <$> (r' :: rows')).
  { clear -Hall. induction Hall as [|?? ?? (_ & Hn & _) _ IH]; [done|].
    csimpl. by rewrite Hn, IH. }
  assert (Hsorted : Forall2 row_encoded (sorted_rows (r :: rows))
                                        (sorted_rows (r' :: rows'))).
  { unfold sorted_rows. rewrite Hkeys. by apply Forall2_take_at. }
  eexists _, _. split_and!; [done..| |].
  - rewrite !relabel_fst. f_equal.
    rewrite <- !(length_fmap snd), !sort_frame_snd.
    by eapply Forall2_length.
  - by rewrite !relabel_snd, !sort_frame_snd.
Qed.

Lemma scenario_cells c xs :
  c ∈ ["odor"; "bruises"]%string → scenario_table !! c = Some xs →
  Forall one_char xs ∧ no_collision xs.
Proof.
  intros Hin Hxs.
  assert (xs = [Str "n"; Str "f"; Str "n"; Str "y"] ∨ xs = [Str "t"; Str "f"])
    as [-> | ->].
  { apply elem_of_cons in Hin as [->|Hin];
      [|apply list_elem_of_singleton in Hin as ->];
      vm_compute in Hxs; injection Hxs as <-; auto. }
  all: split; [one_chars|].
  all: intros [H _]; revert H; apply (bool_decide_unpack _); by vm_compute.
Qed.

Lemma encode_then_cat_var_witness :
  scenario_heap !! 0 = Some (OTable scenario_table) ∧
  scenario_heap !! 1 = Some (OList ["odor"; "bruises"]%string) ∧
  NoDup ["odor"; "bruises"]%string ∧ ["odor"; "bruises"]%string ≠ [] ∧
  all_present scenario_table ["odor"; "bruises"]%string ∧
  (∀ c xs, c ∈ ["odor"; "bruises"]%string → scenario_table !! c = Some xs →
           Forall one_char xs ∧ no_collision xs) ∧
  ∃ fr fr',
    call_cat_var (AS := npy_aquicksort) scenario_heap 0 1 = inr fr ∧
    returned_frame (encode_and_check (AS := npy_aquicksort)
                      (IM := plain_message) 0 1 scenario_heap) = inr fr' ∧
    fr.*1 = fr'.*1 ∧ Forall2 row_encoded fr.*2 fr'.*2.
Proof.
  split; [reflexivity|]. split; [reflexivity|].
  split; [exact NoDup_scenario|]. split; [done|].
  split; [exact all_present_scenario|]. split; [exact scenario_cells|].
  exact (@encode_then_cat_var npy_aquicksort plain_message scenario_heap 0 1
           scenario_table _ eq_refl eq_refl NoDup_scenario
           ltac:(done) all_present_scenario scenario_cells).
Defined.

Lemma size_set_map_inj_on (f : value → value) (X : gset value) :
  (∀ x y, x ∈ X → y ∈ X → f x = f y → x = y) →
  size (set_map f X : gset value) = size X.
Proof.
  intros Hinj. unfold set_map. rewrite size_list_to_set.
  - by rewrite length_fmap.
  - apply NoDup_fmap_2_strong; [|apply NoDup_elements].
    intros x y Hx%elem_of_elements Hy%elem_of_elements. by apply Hinj.
Qed.

Lemma size_codes xs :
  Forall one_char xs →
  size (list_to_set (code <$> xs) : gset value) =
  size (list_to_set xs : gset value) -
  (if decide (Str "?" ∈ xs ∧ Str "{" ∈ xs) then 1 else 0).
Proof.
  intros Hone.
  assert (Hinj : ∀ ys, Forall one_char ys → no_collision ys →
            size (list_to_set (code <$> ys) : gset value) =
            size (list_to_set ys : gset value)).
  { intros ys Hys Hno.
    rewrite (list_to_set_fmap_L (C := gset value) (D := gset value)).
    apply size_set_map_inj_on. intros x y Hx Hy.
    apply elem_of_list_to_set in Hx, Hy. by apply (code_inj_on ys). }
  case_decide as Hboth.
  2:{ rewrite Hinj by done. lia. }
  destruct Hboth as [Hq Hb].
  set (ys := filter (λ v, v ≠ Str "{") xs).
  assert (Hys : Forall one_char ys).
  { apply Forall_forall. intros v [_ Hv]%list_elem_of_filter.
    by eapply Forall_forall in Hone. }
  assert (Hno : no_collision ys).
  { intros [_ [Hne _]%list_elem_of_filter]. done. }
  assert (Himg : (list_to_set (code <$> xs) : gset value) =
                 list_to_set (code <$> ys)).
  { apply set_eq. intros v. rewrite !elem_of_list_to_set, !list_elem_of_fmap.
    split.
    - intros (x & -> & Hx). destruct (decide (x = Str "{")) as [->|Hne].
      + exists (Str "?"). split; [done|]. by apply list_elem_of_filter.
      + exists x. split; [done|]. by apply list_elem_of_filter.
    - intros (x & -> & [_ Hx]%list_elem_of_filter). eauto. }
  assert (Hset : (list_to_set ys : gset value) =
                 list_to_set xs ∖ {[Str "{"]}).
  { apply set_eq. intros v. unfold ys.
    rewrite elem_of_difference, !elem_of_list_to_set, list_elem_of_filter,
      elem_of_singleton. tauto. }
  rewrite Himg, Hinj, Hset by done.
  rewrite size_difference, size_singleton; [done|].
  apply singleton_subseteq_l. by apply elem_of_list_to_set.
Qed.

(** X14: after the encoding cell, [cat_var] reports for every listed column
    the number of distinct values of the column of the table, less one if
    the column holds both ['?'] and ['{']: these two get the same code. *)
Theorem encode_then_cat_var_counts `{!ArgSort, !ArgSortOk, !IndexMessage}
    (h : heap) (mushrooms cat_cols : loc) (T : table) (C : list string)
    (fr' : frame) (r' : row) :
  h !! mushrooms = Some (OTable T) → h !! cat_cols = Some (OList C) →
  NoDup C →
  returned_frame (encode_and_check mushrooms cat_cols h) = inr fr' →
  r' ∈ fr'.*2 →
  ∃ xs, T !! categorical_variable r' = Some xs ∧
    number_of_possible_values r' =
    size (list_to_set xs : gset value) -
    (if decide (Str "?" ∈ xs ∧ Str "{" ∈ xs) then 1 else 0).
Proof.
  intros Hm Hc Hnd Hret Hin.
  destruct (encode_cell mushrooms cat_cols h) as [[e|l] h'] eqn:Hrun.
  { unfold encode_and_check, bind in Hret. by rewrite Hrun in Hret. }
  rewrite (run_encode_and_check _ _ _ _ _ Hrun) in Hret.
  destruct (run_encode_cell_inr h h' _ _ l T C Hm Hc Hnd Hrun)
    as (_ & -> & T' & -> & Hcodes & _).
  assert (Hc' : (h ++ [OTable (select T C); OTable T']) !! cat_cols =
                Some (OList C)) by by apply lookup_app_l_Some.
  assert (Hl' : (h ++ [OTable (select T C); OTable T']) !! (length h + 1) =
                Some (OTable T'))
    by by rewrite lookup_app_r, Nat.add_comm, Nat.add_sub by lia.
  rewrite (run_call_cat_var _ _ _ _ _ Hl' Hc') in Hret.
  apply summarize_inr in Hret as (_ & _ & rows' & Hr' & _ & H2).
  rewrite H2, sorted_rows_perm in Hin.
  destruct (summary_elem_of _ _ _ _ Hr' Hin) as (c & HcC & ys & Hys & ->).
  simpl. destruct (Hcodes c HcC) as (xs & Hxs & Hone & Hy).
  exists xs. split; [done|].
  assert (ys = code <$> xs) as -> by congruence.
  rewrite length_unique. by apply size_codes.
Qed.

Lemma encode_then_cat_var_counts_witness :
  let fr' := [(0, Row "stalk-root" 2 [Int 5; Int 27])] in
  let r' := Row "stalk-root" 2 [Int 5; Int 27] in
  marked_heap !! 0 = Some (OTable marked_table) ∧
  marked_heap !! 2 = Some (OList ["stalk-root"]%string) ∧
  NoDup ["stalk-root"]%string ∧
  returned_frame (encode_and_check (AS := stable_argsort)
                    (IM := plain_message) 0 2 marked_heap) = inr fr' ∧
  r' ∈ fr'.*2 ∧
  ∃ xs, marked_table !! categorical_variable r' = Some xs ∧
    number_of_possible_values r' =
    size (list_to_set xs : gset value) -
    (if decide (Str "?" ∈ xs ∧ Str "{" ∈ xs) then 1 else 0).
Proof.
  intros fr' r'.
  assert (Hnd : NoDup ["stalk-root"]%string) by apply NoDup_singleton.
  assert (Hret : returned_frame (encode_and_check (AS := stable_argsort)
                    (IM := plain_message) 0 2 marked_heap) = inr fr')
    by (vm_compute; reflexivity).
  assert (Hin : r' ∈ fr'.*2) by (simpl; left).
  split; [reflexivity|]. split; [reflexivity|]. split; [exact Hnd|].
  split; [exact Hret|]. split; [exact Hin|].
  exact (@encode_then_cat_var_counts stable_argsort stable_argsort_ok
           plain_message marked_heap 0 2 marked_table _ fr' r'
           eq_refl eq_refl Hnd Hret Hin).
Defined.
